(** * Sette e Mezzo: the round engine of [main.py]

    A shallow embedding of the scoring function, the four round
    transitions ([start_game], [hit], [stay], [exit_game]) and the dealer's
    draw loop, with the properties the specification states about them.

    Conventions.
    - A card is its integer rank, as in the source ([List[int]]).
    - A score is a multiple of 0.5.  It is represented by the number of
      half points it holds, an integer: 0.5 is [1], 7.0 is [14], 7.5 is
      [15].  Every comparison and every sum of the source is taken on these
      integers.
    - Money ([bet], [balance]) is an IEEE 754 binary64 number, as Python's
      [float] and the table's [Float] column are: Rocq's primitive [float],
      whose sum, difference and comparisons round and order as the
      source's do (a NaN compares false with everything).  The table gives
      back the double it was given; it cannot hold a NaN (SQLite stores
      NULL for it), so a row whose balance is not a number is outside the
      model.
    - A Python list is a Rocq list in the same order; [list.pop()] removes
      the LAST element and [list.append] adds at the end.
    - A handler returns its response and the state it leaves behind: what
      was written to [game_state] before an exception stays written. *)

From Stdlib Require Import ZArith Floats Lia List.
From Equations Require Import Equations.
From stdpp Require Import gmap strings list fin_maps.

Local Open Scope Z_scope.

(** ** Exceptions and results *)

Inductive exn : Set :=
| IndexError      (* pop from empty list *)
| KeyError        (* CARD_VALUES[card] with an unknown rank *)
| AttributeError  (* player.balance with player = None *)
| OverflowError   (* an integer bound to a query outside 64 bits *)
.

Inductive result (A : Type) : Type :=
| Ok (a : A)
| Raise (e : exn).
Arguments Ok {A} a.
Arguments Raise {A} e.

(** ** Cards *)

(** [CARDS = [1, 2, 3, 4, 5, 6, 7, 8, 9, 10] * 4] *)
Definition CARDS : list Z :=
  let ranks := [1; 2; 3; 4; 5; 6; 7; 8; 9; 10] in
  ranks ++ ranks ++ ranks ++ ranks.

(** [CARD_VALUES = {1: 1, ..., 7: 7, 8: 0.5, 9: 0.5, 10: 0.5}], in half
    points. *)
Definition CARD_VALUES : gmap Z Z :=
  list_to_map
    [(1, 2); (2, 4); (3, 6); (4, 8); (5, 10); (6, 12); (7, 14);
     (8, 1); (9, 1); (10, 1)].

(** ** calculate_score *)

(** [sum(CARD_VALUES[card] for card in hand if card != 10)]: the builtin
    adds from the left onto an accumulator that starts at 0; a rank that
    is not a key raises [KeyError] when the generator reaches it. *)
Fixpoint sum_values (acc : Z) (hand : list Z) : result Z :=
  match hand with
  | [] => Ok acc
  | card :: rest =>
      if card =? 10 then sum_values acc rest
      else match CARD_VALUES !! card with
           | Some v => sum_values (acc + v) rest
           | None => Raise KeyError
           end
  end.

(** The body of [for _ in range(num_matte)], one Matta. *)
Definition matta_step (score : Z) : Z :=
  if score =? 0 then score + 1
  else if score >=? 14 then score + 1
  else if score mod 2 =? 0 then 14
  else 15.

(** [for _ in range(num_matte): ...] *)
Fixpoint matta_loop (num_matte : nat) (score : Z) : Z :=
  match num_matte with
  | O => score
  | S n => matta_loop n (matta_step score)
  end.

Definition calculate_score (hand : list Z) : result Z :=
  match sum_values 0 hand with
  | Raise e => Raise e
  | Ok score =>
      let num_matte := count_occ Z.eq_dec hand 10 in
      Ok (matta_loop num_matte score)
  end.

(** ** The player table and the round slot *)

(** A row of the [players] table; its [id] is the key under which the
    table holds it. *)
Record Player : Type := {
  username : string;
  balance : float
}.

(** [result_message]: the four texts the source writes. *)
Inductive message : Set :=
| msg_empty                          (* the empty string *)
| msg_bust                           (* "Hai Sballato! Vince il Banco." *)
| msg_player_wins (dealer_score : Z) (* f"HAI VINTO! (Banco: {dealer_score})" *)
| msg_dealer_wins (dealer_score : Z)  (* f"IL BANCO VINCE! (Banco: {dealer_score})" *)
.

(** The [game_state] dictionary: its keys never change, so it is a
    record. *)
Record GameState : Type := {
  deck : list Z;
  player_hand : list Z;
  dealer_hand : list Z;
  current_player_id : option Z;
  bet : float;
  game_over : bool;
  result_message : message;
  active : bool
}.

(** What a request can read and write: the process-wide round slot and the
    committed player table. *)
Record World : Type := {
  game_state : GameState;
  db : gmap Z Player
}.

(** The module-level initial value of [game_state]. *)
Definition initial_game_state : GameState :=
  {| deck := []; player_hand := []; dealer_hand := [];
     current_player_id := None; bet := 0%float;
     game_over := false; result_message := msg_empty; active := false |}.

(** [l.pop()] *)
Definition pop (l : list Z) : result (Z * list Z) :=
  match rev l with
  | [] => Raise IndexError
  | x :: r => Ok (x, rev r)
  end.

(** [db.query(Player).filter(Player.id == game_state["current_player_id"]).first()],
    together with the key of the row found. *)
Definition query_player (w : World) : option (Z * Player) :=
  match current_player_id (game_state w) with
  | None => None
  | Some i =>
      match db w !! i with
      | Some p => Some (i, p)
      | None => None
      end
  end.

(** The integers SQLite binds to a query: a Python [int] outside the
    signed 64-bit range raises [OverflowError] when the query runs. *)
Definition int64_range (n : Z) : bool := (- 2 ^ 63 <=? n) && (n <? 2 ^ 63).

(** ** start_game *)

Section StartGame.

(** The outcome of this request's [random.shuffle]. *)
Variable shuffle : list Z -> list Z.

Definition start_game (player_id : Z) (bet : float) (w : World)
  : result unit * World :=
  if negb (int64_range player_id) then (Raise OverflowError, w) else
  match db w !! player_id with
  | None => (Ok tt, w)
  | Some player =>
      if (balance player <? bet)%float || (bet <=? 0)%float then (Ok tt, w)
      else
        let deck := shuffle CARDS in
        (* The dictionary literal is evaluated key by key: "deck" takes
           the list object itself, then the two [deck.pop()] shorten that
           same object. *)
        match pop deck with
        | Raise e => (Raise e, w)
        | Ok (c1, deck1) =>
            match pop deck1 with
            | Raise e => (Raise e, w)
            | Ok (c2, deck2) =>
                (Ok tt,
                 {| game_state :=
                      {| deck := deck2;
                         player_hand := [c1];
                         dealer_hand := [c2];
                         current_player_id := Some player_id;
                         bet := bet;
                         game_over := false;
                         result_message := msg_empty;
                         active := true |};
                    db := db w |})
            end
        end
  end.

End StartGame.

(** ** hit *)

(** [player.balance -= amount] and [player.balance += amount], on
    doubles. *)
Definition charge (p : Player) (amount : float) : Player :=
  {| username := username p; balance := (balance p - amount)%float |}.

Definition credit (p : Player) (amount : float) : Player :=
  {| username := username p; balance := (balance p + amount)%float |}.

Definition hit (w : World) : result unit * World :=
  let gs := game_state w in
  if game_over gs then (Ok tt, w)
  else
    match pop (deck gs) with
    | Raise e => (Raise e, w)
    | Ok (card, deck') =>
        let gs1 :=
          {| deck := deck';
             player_hand := player_hand gs ++ [card];
             dealer_hand := dealer_hand gs;
             current_player_id := current_player_id gs;
             bet := bet gs;
             game_over := game_over gs;
             result_message := result_message gs;
             active := active gs |} in
        match calculate_score (player_hand gs1) with
        | Raise e => (Raise e, {| game_state := gs1; db := db w |})
        | Ok current_score =>
            if current_score >? 15 then
              let gs2 :=
                {| deck := deck gs1;
                   player_hand := player_hand gs1;
                   dealer_hand := dealer_hand gs1;
                   current_player_id := current_player_id gs1;
                   bet := bet gs1;
                   game_over := true;
                   result_message := msg_bust;
                   active := active gs1 |} in
              match query_player w with
              | Some (i, player) =>
                  (Ok tt,
                   {| game_state := gs2;
                      db := <[i := charge player (bet gs2)]> (db w) |})
              | None => (Ok tt, {| game_state := gs2; db := db w |})
              end
            else (Ok tt, {| game_state := gs1; db := db w |})
        end
    end.

(** ** stay *)

(** The [while] loop of [stay] on the two lists it changes.  The loop
    condition and [ds] are the same pure call on the same hand, taken once
    here; the two [break]s are tested in the order of the source.  Each
    turn that does not leave the loop pops one card, so the deck shrinks. *)
Equations? dealer_loop (player_score : Z) (hand cards : list Z)
  : result unit * (list Z * list Z) by wf (length cards) lt :=
dealer_loop player_score hand cards
  with calculate_score hand => {
  | Raise e => (Raise e, (hand, cards));
  | Ok ds with ds <? 15 => {
    | false => (Ok tt, (hand, cards));
    | true with (ds >? player_score) && (ds >=? 12) => {
      | true => (Ok tt, (hand, cards));
      | false with (ds =? player_score) && (ds >=? 12) => {
        | true => (Ok tt, (hand, cards));
        | false with Logic.inspect (pop cards) => {
          | exist _ (Raise e) _ => (Raise e, (hand, cards));
          | exist _ (Ok (card, cards')) Hpop =>
              dealer_loop player_score (hand ++ [card]) cards' } } } } }.
Proof.
  unfold pop in Hpop.
  rewrite <- (length_rev cards).
  destruct (rev cards) as [|x r]; [discriminate|].
  injection Hpop as _ <-. rewrite length_rev. simpl. lia.
Qed.

(** The comparison that decides the settlement, on the two final scores. *)
Definition player_wins (player_score dealer_score : Z) : bool :=
  (player_score <=? 15)
  && ((dealer_score >? 15) || (player_score >? dealer_score)).

(** The two branches of the settlement: the message each writes, and what
    each does to the bettor's row. *)
Definition result_text (player_score dealer_score : Z) : message :=
  if player_wins player_score dealer_score
  then msg_player_wins dealer_score
  else msg_dealer_wins dealer_score.

Definition settled
    (player_score dealer_score : Z) (stake : float) (player : Player)
  : Player :=
  if player_wins player_score dealer_score
  then credit player stake
  else charge player stake.

Definition stay (w : World) : result unit * World :=
  let gs := game_state w in
  match calculate_score (player_hand gs) with
  | Raise e => (Raise e, w)
  | Ok player_score =>
      let '(r, (hand, cards)) :=
        dealer_loop player_score (dealer_hand gs) (deck gs) in
      let gs1 :=
        {| deck := cards;
           player_hand := player_hand gs;
           dealer_hand := hand;
           current_player_id := current_player_id gs;
           bet := bet gs;
           game_over := game_over gs;
           result_message := result_message gs;
           active := active gs |} in
      match r with
      | Raise e => (Raise e, {| game_state := gs1; db := db w |})
      | Ok _ =>
          match calculate_score (dealer_hand gs1) with
          | Raise e => (Raise e, {| game_state := gs1; db := db w |})
          | Ok dealer_score =>
              let gs2 :=
                {| deck := deck gs1;
                   player_hand := player_hand gs1;
                   dealer_hand := dealer_hand gs1;
                   current_player_id := current_player_id gs1;
                   bet := bet gs1;
                   game_over := game_over gs1;
                   result_message := result_text player_score dealer_score;
                   active := active gs1 |} in
              match query_player w with
              | None =>
                  (* [player.balance] on [None], after the message was
                     written *)
                  (Raise AttributeError, {| game_state := gs2; db := db w |})
              | Some (i, player) =>
                  let player' :=
                    settled player_score dealer_score (bet gs2) player in
                  (Ok tt,
                   {| game_state :=
                        {| deck := deck gs2;
                           player_hand := player_hand gs2;
                           dealer_hand := dealer_hand gs2;
                           current_player_id := current_player_id gs2;
                           bet := bet gs2;
                           game_over := true;
                           result_message := result_message gs2;
                           active := active gs2 |};
                      db := <[i := player']> (db w) |})
              end
          end
      end
  end.

(** ** exit_game *)

Definition exit_game (w : World) : result unit * World :=
  let gs := game_state w in
  (Ok tt,
   {| game_state :=
        {| deck := deck gs;
           player_hand := player_hand gs;
           dealer_hand := dealer_hand gs;
           current_player_id := current_player_id gs;
           bet := bet gs;
           game_over := game_over gs;
           result_message := result_message gs;
           active := false |};
      db := db w |}).

(** ** home *)

(** The context [home] hands to the template: the game view or the menu
    view. *)
Inductive view : Type :=
| view_game (player : option Player) (player_cards dealer_cards : list Z)
    (player_score : Z) (over : bool) (text : message) (stake : float)
| view_menu (players leaderboard : list Player).

Section Home.

(** The rows the table returns for [db.query(Player).all()] and for
    [db.query(Player).order_by(Player.balance.desc()).limit(5).all()]. *)
Variable all_players : gmap Z Player -> list Player.
Variable top_players : gmap Z Player -> list Player.

Definition home (w : World) : result view :=
  let players := all_players (db w) in
  let leaderboard := top_players (db w) in
  let gs := game_state w in
  if active gs then
    let player := snd <$> query_player w in
    (* [dealer_hand if game_over else [dealer_hand[0]]] *)
    let shown :=
      if game_over gs then Ok (dealer_hand gs)
      else match dealer_hand gs with
           | [] => Raise IndexError
           | c :: _ => Ok [c]
           end in
    match shown with
    | Raise e => Raise e
    | Ok dealer_cards =>
        match calculate_score (player_hand gs) with
        | Raise e => Raise e
        | Ok player_score =>
            Ok (view_game player (player_hand gs) dealer_cards player_score
                  (game_over gs) (result_message gs) (bet gs))
        end
    end
  else Ok (view_menu players leaderboard).

End Home.

(** ** add_player *)

(** What [add_player] answers: the redirect, or the [IntegrityError] of
    the commit when [username] (declared [unique]) or the primary key is
    taken. *)
Inductive add_response : Set :=
| Added
| IntegrityError.

Section AddPlayer.

(** The primary key the table gives the new row. *)
Variable new_id : Z.

Definition add_player (name : string) (w : World) : add_response * World :=
  let new_player := {| username := name; balance := 100%float |} in
  if decide (map_Exists (fun _ p => username p = name) (db w)) then
    (IntegrityError, w)
  else
    match db w !! new_id with
    | Some _ => (IntegrityError, w)
    | None =>
        (Added,
         {| game_state := game_state w;
            db := <[new_id := new_player]> (db w) |})
    end.

End AddPlayer.

(** ** The states a round goes through *)

(** A request is accepted by [start_game] when the player exists (under
    a key the table can hold) and [0 < bet <= balance]. *)
Definition accepted (player_id : Z) (amount : float) (w : World) : Prop :=
  exists player, db w !! player_id = Some player
                 /\ int64_range player_id = true
                 /\ (0 <? amount)%float = true
                 /\ (amount <=? balance player)%float = true.

(** The worlds reached from an accepted [start_game] by the four
    transitions; a later accepted [start_game] opens a new round.  The
    bet of a round is a finite number ([0 < inf <= inf] is accepted too,
    and [inf - inf] is not a number). *)
Inductive reachable : World -> Prop :=
| reach_start shuffle player_id amount w :
    shuffle CARDS ≡ₚ CARDS ->
    accepted player_id amount w ->
    is_finite amount = true ->
    reachable (snd (start_game shuffle player_id amount w))
| reach_hit w : reachable w -> reachable (snd (hit w))
| reach_stay w : reachable w -> reachable (snd (stay w))
| reach_exit w : reachable w -> reachable (snd (exit_game w)).

(** ** The scoring algorithm as the specification words it *)

Module Spec.

(** [cardValue(rank) = rank] for 1..7 and 0.5 for 8 and 9 (in half
    points); no value is given to any other rank. *)
Definition cardValue (rank : Z) : option Z :=
  if decide (1 <= rank <= 7) then Some (2 * rank)
  else if decide (rank = 8 \/ rank = 9) then Some 1
  else None.

(** [base = sum(cardValue(c) for c in hand if c.rank ≠ 10)] *)
Fixpoint base (hand : list Z) : option Z :=
  match hand with
  | [] => Some 0
  | c :: rest =>
      if decide (c = 10) then base rest
      else match cardValue c, base rest with
           | Some v, Some b => Some (v + b)
           | _, _ => None
           end
  end.

(** The wildcards of a hand. *)
Definition wildcards (hand : list Z) : list Z :=
  filter (fun c => c = 10) hand.

(** One wildcard on a running score: the four cases of the rule, each
    under its own condition. *)
Definition wildcard (score : Z) : option Z :=
  if decide (score = 0) then Some (score + 1)
  else if decide (14 <= score) then Some (score + 1)
  else if decide (0 < score < 14 /\ Z.even score = true) then Some 14
  else if decide (score < 14 /\ Z.odd score = true) then Some 15
  else None.

(** Every wildcard of the hand updates the running score, which starts
    at [base]. *)
Definition score (hand : list Z) : option Z :=
  foldr (fun _ running => running ≫= wildcard) (base hand) (wildcards hand).

End Spec.

(** ** Vocabulary of the statements *)

(** The ranks that are keys of [CARD_VALUES]. *)
Definition valid_card (c : Z) : Prop := 1 <= c <= 10.

(** The stopping conditions of the Dealer Policy as the specification
    lists them, on [D] the dealer's score and [P] the player's:
    [D >= 7.5], or [D > P] and [D >= 6], or [D = P] and [D >= 6]. *)
Definition dealer_stops (D P : Z) : Prop :=
  15 <= D \/ (P < D /\ 12 <= D) \/ (D = P /\ 12 <= D).

(** The round slot with another dealer hand, and with another [active]
    flag. *)
Definition with_dealer_hand (hand : list Z) (w : World) : World :=
  let gs := game_state w in
  {| game_state :=
       {| deck := deck gs;
          player_hand := player_hand gs;
          dealer_hand := hand;
          current_player_id := current_player_id gs;
          bet := bet gs;
          game_over := game_over gs;
          result_message := result_message gs;
          active := active gs |};
     db := db w |}.

Definition with_active (b : bool) (w : World) : World :=
  let gs := game_state w in
  {| game_state :=
       {| deck := deck gs;
          player_hand := player_hand gs;
          dealer_hand := dealer_hand gs;
          current_player_id := current_player_id gs;
          bet := bet gs;
          game_over := game_over gs;
          result_message := result_message gs;
          active := b |};
     db := db w |}.

(** What holds of every world of a round. *)
Record round_inv (w : World) : Prop := {
  inv_cards :
    deck (game_state w) ++ player_hand (game_state w)
      ++ dealer_hand (game_state w) ≡ₚ CARDS;
  inv_player_hand : (length (player_hand (game_state w)) <= 16)%nat;
  inv_in_progress :
    game_over (game_state w) = false ->
    exists s, calculate_score (player_hand (game_state w)) = Ok s /\ s <= 15;
  inv_dealer_hand : (length (dealer_hand (game_state w)) <= 15)%nat;
  inv_bettor : is_Some (query_player w);
  inv_bet : (0 <? bet (game_state w))%float = true
}.

(** No two rows of the table carry the same [username]. *)
Definition unique_usernames (table : gmap Z Player) : Prop :=
  forall i j p q,
    table !! i = Some p -> table !! j = Some q ->
    username p = username q -> i = j.

(** A table with one player, and worlds over it: before any round, a
    round dealt from the unshuffled pack, that round after the player
    stood, and that round left by [exit_game] right after the deal. *)
Definition one_player : gmap Z Player :=
  {[ 1 := {| username := "anna"; balance := 100%float |} ]}.

Definition world0 : World :=
  {| game_state := initial_game_state; db := one_player |}.

Definition world_dealt : World := snd (start_game (fun l => l) 1 20%float world0).

Definition world_stood : World := snd (stay world_dealt).

Definition world_exited : World := snd (exit_game world_dealt).

(** The pack cut so that it ends on 5, 6, 7, and the round dealt from it:
    the player holds the 7 and the next card of the deck is the 5. *)
Definition cut_pack (l : list Z) : list Z := drop 37 l ++ take 37 l.

Definition world_seven : World := snd (start_game cut_pack 1 20%float world0).



(** * Properties *)

(** ** Some runs *)

Example score_ex1 : calculate_score [10; 3] = Ok 14.
Proof. reflexivity. Qed.
Example score_ex2 : calculate_score [10; 11] = Raise KeyError.
Proof. reflexivity. Qed.

Example dealer_loop_ex :
  dealer_loop 15 [3] [1; 2; 3; 7; 4] = (Ok tt, ([3; 4; 7], [1; 2; 3])).
Proof. reflexivity. Qed.

(** ** Lists: [pop] and [append] *)

Lemma pop_app (l : list Z) (c : Z) : pop (l ++ [c]) = Ok (c, l).
Proof.
  unfold pop. rewrite rev_app_distr. simpl. by rewrite rev_involutive.
Qed.

Lemma pop_nil : pop [] = Raise IndexError.
Proof. reflexivity. Qed.

Lemma pop_Ok (l l' : list Z) (c : Z) : pop l = Ok (c, l') <-> l = l' ++ [c].
Proof.
  split; [|intros ->; apply pop_app].
  destruct l as [|x l] using rev_ind; [discriminate|].
  rewrite pop_app. by intros [= -> ->].
Qed.

Lemma pop_Raise (l : list Z) (e : exn) :
  pop l = Raise e <-> l = [] /\ e = IndexError.
Proof.
  destruct l as [|x l] using rev_ind.
  - rewrite pop_nil. split; [by intros [= <-] | by intros [_ ->]].
  - rewrite pop_app. split; [discriminate|].
    intros [H _]. by destruct l.
Qed.

(** ** The card values *)

Lemma CARD_VALUES_lookup (c : Z) :
  CARD_VALUES !! c =
    if decide (1 <= c <= 7) then Some (2 * c)
    else if decide (8 <= c <= 10) then Some 1
    else None.
Proof.
  unfold CARD_VALUES. simpl.
  repeat (rewrite lookup_insert; case_decide;
          [subst c; repeat case_decide; (reflexivity || lia)|]).
  rewrite lookup_empty. repeat case_decide; (reflexivity || lia).
Qed.

Lemma CARD_VALUES_valid (c : Z) :
  valid_card c -> exists v, CARD_VALUES !! c = Some v /\ 1 <= v.
Proof.
  unfold valid_card. intros Hc. rewrite CARD_VALUES_lookup.
  repeat case_decide; try lia; eexists; (split; [reflexivity | lia]).
Qed.

Lemma CARD_VALUES_pos (c v : Z) : CARD_VALUES !! c = Some v -> 1 <= v.
Proof.
  rewrite CARD_VALUES_lookup.
  repeat case_decide; intros [= <-]; lia.
Qed.

Lemma CARDS_valid (c : Z) : c ∈ CARDS -> valid_card c.
Proof.
  unfold CARDS, valid_card. rewrite !elem_of_app, !elem_of_cons, elem_of_nil.
  intros H. decompose [or] H; subst; lia.
Qed.

(** ** calculate_score against the specification's algorithm *)

Lemma cardValue_lookup (c : Z) :
  c <> 10 -> CARD_VALUES !! c = Spec.cardValue c.
Proof.
  intros Hc. rewrite CARD_VALUES_lookup. unfold Spec.cardValue.
  repeat case_decide; (reflexivity || lia).
Qed.

Lemma sum_values_base (acc : Z) (hand : list Z) :
  sum_values acc hand =
    match Spec.base hand with
    | Some b => Ok (acc + b)
    | None => Raise KeyError
    end.
Proof.
  revert acc. induction hand as [|c rest IH]; intros acc; simpl.
  - f_equal. lia.
  - destruct (Z.eqb_spec c 10) as [->|Hc].
    + rewrite decide_True by done. apply IH.
    + rewrite decide_False by done. rewrite (cardValue_lookup c Hc).
      destruct (Spec.cardValue c) as [v|]; [|done].
      rewrite IH. destruct (Spec.base rest); [|done].
      f_equal. lia.
Qed.

Lemma base_lower_bound (hand : list Z) (b : Z) :
  Spec.base hand = Some b ->
  Z.of_nat (length hand) - Z.of_nat (count_occ Z.eq_dec hand 10) <= b.
Proof.
  revert b. induction hand as [|c rest IH]; intros b; simpl.
  - intros [= <-]. lia.
  - destruct (Z.eq_dec c 10) as [->|Hc].
    + rewrite decide_True by done. intros Hb. specialize (IH _ Hb). lia.
    + rewrite decide_False by done. rewrite <- (cardValue_lookup c Hc).
      destruct (CARD_VALUES !! c) as [v|] eqn:Hv; [|done].
      destruct (Spec.base rest) as [b'|]; [|done].
      intros [= <-]. specialize (IH _ eq_refl).
      apply CARD_VALUES_pos in Hv. lia.
Qed.

Lemma base_valid (hand : list Z) :
  Forall valid_card hand -> is_Some (Spec.base hand).
Proof.
  induction 1 as [|c rest Hc _ IH]; simpl; [by eexists|].
  case_decide; [done|].
  rewrite <- (cardValue_lookup c) by done.
  destruct (CARD_VALUES_valid c Hc) as (v & -> & _).
  destruct IH as [b ->]. by eexists.
Qed.

Lemma matta_step_wildcard (s : Z) :
  0 <= s -> Spec.wildcard s = Some (matta_step s).
Proof.
  intros Hs. unfold Spec.wildcard, matta_step.
  destruct (Z.eqb_spec s 0) as [->|H0]; [done|].
  rewrite decide_False by done.
  destruct (Z.geb_spec s 14) as [H14|H14].
  { by rewrite decide_True by lia. }
  rewrite decide_False by lia.
  rewrite Zmod_even, <- Z.negb_even.
  destruct (Z.even s); simpl.
  - by rewrite decide_True by (split; [lia|done]).
  - rewrite decide_False by (intros [_ ?]; done).
    by rewrite decide_True by (split; [lia|done]).
Qed.

Lemma matta_step_grows (s : Z) : 0 <= s -> s + 1 <= matta_step s.
Proof.
  intros Hs. unfold matta_step.
  destruct (Z.eqb_spec s 0); [lia|].
  destruct (Z.geb_spec s 14); [lia|].
  pose proof (Z.mod_pos_bound s 2 ltac:(lia)) as Hm.
  destruct (Z.eqb_spec (s mod 2) 0) as [He|Ho]; [lia|].
  assert (s <> 13 -> s + 1 <= 14) by lia. lia.
Qed.

Lemma matta_loop_S (n : nat) (s : Z) :
  matta_loop (S n) s = matta_step (matta_loop n s).
Proof. revert s. induction n as [|n IH]; intros s; [done|]. simpl in *. apply IH. Qed.

Lemma matta_loop_grows (n : nat) (s : Z) :
  0 <= s -> s + Z.of_nat n <= matta_loop n s.
Proof.
  revert s. induction n as [|n IH]; intros s Hs; simpl; [lia|].
  pose proof (matta_step_grows s Hs). specialize (IH (matta_step s)). lia.
Qed.

Lemma wildcards_count (hand : list Z) :
  length (Spec.wildcards hand) = count_occ Z.eq_dec hand 10.
Proof.
  unfold Spec.wildcards. induction hand as [|c rest IH]; [done|].
  rewrite filter_cons. simpl. destruct (Z.eq_dec c 10) as [->|Hc].
  - rewrite decide_True by done. simpl. by rewrite IH.
  - by rewrite decide_False by done.
Qed.

Lemma wildcard_fold (ws : list Z) (b : Z) :
  0 <= b ->
  foldr (fun _ running => running ≫= Spec.wildcard) (Some b) ws
  = Some (matta_loop (length ws) b).
Proof.
  intros Hb. induction ws as [|w ws IH]; [done|].
  cbn [foldr length]. rewrite IH, matta_loop_S. simpl.
  apply matta_step_wildcard.
  pose proof (matta_loop_grows (length ws) b Hb). lia.
Qed.

Lemma wildcard_fold_None (ws : list Z) :
  foldr (fun _ running => running ≫= Spec.wildcard) None ws = None.
Proof. induction ws as [|w ws IH]; [done|]. simpl. by rewrite IH. Qed.

Lemma calculate_score_Spec (hand : list Z) :
  calculate_score hand =
    match Spec.score hand with
    | Some s => Ok s
    | None => Raise KeyError
    end.
Proof.
  unfold calculate_score, Spec.score. rewrite sum_values_base.
  destruct (Spec.base hand) as [b|] eqn:Hb.
  - pose proof (base_lower_bound hand b Hb) as Hlow.
    assert (0 <= b) as Hb0.
    { pose proof (count_occ_bound Z.eq_dec 10 hand). lia. }
    rewrite wildcard_fold by done. by rewrite wildcards_count.
  - by rewrite wildcard_fold_None.
Qed.

Lemma calculate_score_valid (hand : list Z) :
  Forall valid_card hand -> exists s, calculate_score hand = Ok s.
Proof.
  intros Hv. unfold calculate_score. rewrite sum_values_base.
  destruct (base_valid hand Hv) as [b ->]. eauto.
Qed.

(** A hand scores at least half a point per card. *)
Lemma calculate_score_length (hand : list Z) (s : Z) :
  calculate_score hand = Ok s -> Z.of_nat (length hand) <= s.
Proof.
  unfold calculate_score. rewrite sum_values_base.
  destruct (Spec.base hand) as [b|] eqn:Hb; [|done].
  intros [= <-].
  pose proof (base_lower_bound hand b Hb) as Hlow.
  pose proof (count_occ_bound Z.eq_dec 10 hand) as Hc.
  pose proof (matta_loop_grows (count_occ Z.eq_dec hand 10) (0 + b)
                ltac:(lia)).
  lia.
Qed.

(** C1. For every hand, [calculate_score] returns what the
    specification's algorithm returns: the base is the sum of the card
    values of the cards that are not rank 10 (the rank for 1..7, 0.5 for 8
    and 9), and each rank-10 wildcard then updates the running score: +0.5
    at 0, +0.5 at 7 or more, to 7.0 from a positive integer below 7, to 7.5
    from a half-integer below 7.  On a hand of ranks 1..10 both are
    defined.  In half points: score([10]) = 0.5, score([10,10]) = 7.5,
    score([10,3]) = 7.0, score([7,1]) = 8.0 and score([8,9]) = 1.0. *)
Theorem calculate_score_refines_spec :
  (forall hand : list Z,
      calculate_score hand =
        match Spec.score hand with
        | Some s => Ok s
        | None => Raise KeyError
        end)
  /\ (forall hand : list Z,
         Forall valid_card hand ->
         exists s, Spec.score hand = Some s /\ calculate_score hand = Ok s)
  /\ calculate_score [10] = Ok 1
  /\ calculate_score [10; 10] = Ok 15
  /\ calculate_score [10; 3] = Ok 14
  /\ calculate_score [7; 1] = Ok 16
  /\ calculate_score [8; 9] = Ok 2.
Proof.
  split; [exact calculate_score_Spec|].
  split; [|by repeat split].
  intros hand Hv.
  destruct (calculate_score_valid hand Hv) as [s Hs].
  exists s. split; [|done].
  rewrite calculate_score_Spec in Hs.
  by destruct (Spec.score hand); simplify_eq.
Qed.

Lemma calculate_score_refines_spec_witness :
  exists s, Spec.score [8; 10; 2; 10] = Some s
            /\ calculate_score [8; 10; 2; 10] = Ok s.
Proof.
  apply (proj1 (proj2 calculate_score_refines_spec) [8; 10; 2; 10]).
  unfold valid_card. repeat constructor; lia.
Defined.

(** ** Reordering a hand *)

Lemma base_Permutation (h h' : list Z) :
  h ≡ₚ h' -> Spec.base h = Spec.base h'.
Proof.
  induction 1 as [|c l l' _ IH|x y l|l1 l2 l3 _ IH1 _ IH2]; simpl.
  - done.
  - by rewrite IH.
  - repeat case_decide; try done;
      destruct (Spec.cardValue x), (Spec.cardValue y), (Spec.base l);
      try done; f_equal; lia.
  - congruence.
Qed.

Lemma count_occ_Permutation (h h' : list Z) (c : Z) :
  h ≡ₚ h' -> count_occ Z.eq_dec h c = count_occ Z.eq_dec h' c.
Proof.
  induction 1 as [|x l l' _ IH|x y l|l1 l2 l3 _ IH1 _ IH2]; simpl.
  - done.
  - by rewrite IH.
  - by destruct (Z.eq_dec x c), (Z.eq_dec y c).
  - congruence.
Qed.

(** C6. For every hand and every permutation of its cards, the score of
    the permuted hand is the score of the hand (the same number, or the
    same [KeyError]); and the wildcards of the specification's algorithm
    may be processed in any order. *)
Theorem calculate_score_Permutation (h h' : list Z) :
  h ≡ₚ h' ->
  calculate_score h = calculate_score h'
  /\ forall ws : list Z,
       ws ≡ₚ Spec.wildcards h ->
       foldr (fun _ running => running ≫= Spec.wildcard) (Spec.base h) ws
       = Spec.score h'.
Proof.
  intros Hp. split.
  - unfold calculate_score. rewrite !sum_values_base.
    rewrite (base_Permutation h h' Hp).
    by rewrite (count_occ_Permutation h h' 10 Hp).
  - intros ws Hws. unfold Spec.score.
    rewrite <- (base_Permutation h h' Hp).
    assert (length ws = length (Spec.wildcards h')) as Hlen.
    { rewrite Hws, !wildcards_count. by apply count_occ_Permutation. }
    revert Hlen. generalize (Spec.wildcards h') as ws'.
    generalize (Spec.base h) as b. clear.
    induction ws as [|w ws IH]; intros b [|w' ws'] Hlen; try done.
    simpl. f_equal. apply IH. by injection Hlen.
Qed.

Lemma calculate_score_Permutation_witness :
  calculate_score [10; 3; 8; 10] = calculate_score [3; 10; 10; 8]
  /\ forall ws : list Z,
       ws ≡ₚ Spec.wildcards [10; 3; 8; 10] ->
       foldr (fun _ running => running ≫= Spec.wildcard)
             (Spec.base [10; 3; 8; 10]) ws
       = Spec.score [3; 10; 10; 8].
Proof.
  apply (calculate_score_Permutation [10; 3; 8; 10] [3; 10; 10; 8]).
  change ([10; 3] ++ [8; 10] ≡ₚ [3; 10] ++ [10; 8]).
  apply Permutation_app; apply perm_swap.
Defined.

(** ** The dealer's loop *)

Lemma dealer_loop_eq (player_score : Z) (hand cards : list Z) :
  dealer_loop player_score hand cards =
    match calculate_score hand with
    | Raise e => (Raise e, (hand, cards))
    | Ok ds =>
        if ds <? 15 then
          if (ds >? player_score) && (ds >=? 12) then (Ok tt, (hand, cards))
          else if (ds =? player_score) && (ds >=? 12) then
                 (Ok tt, (hand, cards))
          else match pop cards with
               | Raise e => (Raise e, (hand, cards))
               | Ok (card, cards') =>
                   dealer_loop player_score (hand ++ [card]) cards'
               end
        else (Ok tt, (hand, cards))
    end.
Proof.
  simp dealer_loop.
  destruct (calculate_score hand) as [ds|e]; simpl; [|done].
  destruct (ds <? 15); simpl; [|done].
  destruct ((ds >? player_score) && (ds >=? 12)); simpl; [done|].
  destruct ((ds =? player_score) && (ds >=? 12)); simpl; [done|].
  by destruct (pop cards) as [[c cs]|e].
Qed.

Lemma dealer_stops_dec (D P : Z) :
  dealer_stops D P <->
  (D <? 15) && negb ((D >? P) && (D >=? 12))
            && negb ((D =? P) && (D >=? 12)) = false.
Proof.
  unfold dealer_stops.
  destruct (Z.ltb_spec D 15), (Z.gtb_spec D P), (Z.geb_spec D 12),
    (Z.eqb_spec D P); simpl; split; intros; try done; lia.
Qed.

Lemma dealer_loop_stop (player_score ds : Z) (hand cards : list Z) :
  calculate_score hand = Ok ds ->
  dealer_stops ds player_score ->
  dealer_loop player_score hand cards = (Ok tt, (hand, cards)).
Proof.
  intros Hs Hstop. rewrite dealer_loop_eq, Hs.
  apply dealer_stops_dec in Hstop.
  destruct (ds <? 15), ((ds >? player_score) && (ds >=? 12)),
    ((ds =? player_score) && (ds >=? 12)); done.
Qed.

Lemma dealer_loop_draw (player_score ds : Z) (hand cards : list Z) :
  calculate_score hand = Ok ds ->
  ~ dealer_stops ds player_score ->
  dealer_loop player_score hand cards =
    match pop cards with
    | Raise e => (Raise e, (hand, cards))
    | Ok (card, cards') => dealer_loop player_score (hand ++ [card]) cards'
    end.
Proof.
  intros Hs Hgo. rewrite dealer_loop_eq, Hs.
  rewrite dealer_stops_dec in Hgo.
  destruct (ds <? 15), ((ds >? player_score) && (ds >=? 12)),
    ((ds =? player_score) && (ds >=? 12)); done.
Qed.

(** The loop only moves cards from the end of the deck to the end of the
    hand: [drawn] is the part of the deck it took. *)
Lemma dealer_loop_moves (player_score : Z) (hand cards : list Z) :
  exists r drawn cards',
    dealer_loop player_score hand cards = (r, (hand ++ rev drawn, cards'))
    /\ cards = cards' ++ drawn.
Proof.
  revert hand. induction cards as [|c cards IH] using rev_ind; intros hand.
  - exists (fst (dealer_loop player_score hand [])), [], [].
    rewrite app_nil_r. split; [|done].
    rewrite dealer_loop_eq.
    destruct (calculate_score hand) as [ds|e]; [|done].
    by destruct (ds <? 15), ((ds >? player_score) && (ds >=? 12)),
      ((ds =? player_score) && (ds >=? 12)).
  - rewrite dealer_loop_eq.
    destruct (calculate_score hand) as [ds|e];
      [|by exists (Raise e), [], (cards ++ [c]); rewrite !app_nil_r].
    destruct (ds <? 15), ((ds >? player_score) && (ds >=? 12)),
      ((ds =? player_score) && (ds >=? 12));
      try by exists (Ok tt), [], (cards ++ [c]); rewrite !app_nil_r.
    rewrite pop_app.
    destruct (IH (hand ++ [c])) as (r & drawn & cards' & -> & ->).
    exists r, (drawn ++ [c]), cards'.
    rewrite rev_app_distr, <- !app_assoc. done.
Qed.

(** With enough valid cards at hand the loop ends without an exception, on
    a dealer hand at which a stopping condition holds. *)
Lemma dealer_loop_Ok (player_score : Z) (hand cards : list Z) :
  Forall valid_card (hand ++ cards) ->
  (15 <= length hand + length cards)%nat ->
  exists drawn cards' ds,
    dealer_loop player_score hand cards = (Ok tt, (hand ++ rev drawn, cards'))
    /\ cards = cards' ++ drawn
    /\ calculate_score (hand ++ rev drawn) = Ok ds
    /\ dealer_stops ds player_score
    /\ (drawn <> [] -> (length (hand ++ rev drawn) <= 15)%nat).
Proof.
  revert hand. induction cards as [|c cards IH] using rev_ind;
    intros hand Hvalid Hlen.
  - rewrite app_nil_r in Hvalid.
    destruct (calculate_score_valid hand Hvalid) as [ds Hds].
    pose proof (calculate_score_length hand ds Hds) as Hlow.
    simpl in Hlen.
    assert (dealer_stops ds player_score) as Hstop by (left; lia).
    exists [], [], ds. rewrite app_nil_r.
    by rewrite (dealer_loop_stop _ ds).
  - assert (Forall valid_card hand) as Hvh.
    { by apply Forall_app in Hvalid as [? _]. }
    destruct (calculate_score_valid hand Hvh) as [ds Hds].
    destruct (decide (dealer_stops ds player_score)) as [Hstop|Hgo].
    { exists [], (cards ++ [c]), ds. rewrite !app_nil_r.
      by rewrite (dealer_loop_stop _ ds). }
    rewrite (dealer_loop_draw _ ds) by done. rewrite pop_app.
    destruct (IH (hand ++ [c])) as (drawn & cards' & ds' & -> & -> & Hs' & Hstop' & Hb).
    { rewrite !Forall_app in *. tauto. }
    { rewrite length_app in *. simpl in *. lia. }
    exists (drawn ++ [c]), cards', ds'.
    rewrite rev_app_distr. simpl.
    rewrite <- !app_assoc in *. simpl in *.
    repeat split; try done.
    intros _. destruct drawn as [|d drawn].
    + simpl. rewrite length_app. simpl.
      pose proof (calculate_score_length hand ds Hds).
      assert (ds < 15) by (unfold dealer_stops in Hgo; lia). lia.
    + by apply Hb.
Qed.

(** C4. With [P] the player's score fixed when Stand is invoked and [D]
    the score of the dealer's hand, the loop leaves the hand and the deck
    as they are when a stopping condition holds ([D >= 7.5], or [D > P]
    and [D >= 6], or [D = P] and [D >= 6]); when none holds it draws the
    last card of the deck into the hand and goes on from there (on an
    empty deck the draw raises [IndexError]).  A tie below 6 is not a
    stopping condition.  The loop is a function of the hand, the deck and
    [P] alone. *)
Theorem dealer_policy_draws (P D : Z) (hand cards : list Z) :
  calculate_score hand = Ok D ->
  (dealer_stops D P ->
   dealer_loop P hand cards = (Ok tt, (hand, cards)))
  /\ (~ dealer_stops D P ->
      forall card cards', cards = cards' ++ [card] ->
        dealer_loop P hand cards = dealer_loop P (hand ++ [card]) cards')
  /\ (~ dealer_stops D P -> cards = [] ->
      dealer_loop P hand cards = (Raise IndexError, (hand, [])))
  /\ (D = P -> D < 12 -> ~ dealer_stops D P).
Proof.
  intros HD. repeat split.
  - by apply dealer_loop_stop.
  - intros Hgo card cards' ->.
    by rewrite (dealer_loop_draw P D), pop_app.
  - intros Hgo ->. by rewrite (dealer_loop_draw P D).
  - unfold dealer_stops. lia.
Qed.

Lemma dealer_policy_draws_witness :
  (dealer_stops 10 10 ->
   dealer_loop 10 [5] [1; 2; 7] = (Ok tt, ([5], [1; 2; 7])))
  /\ (~ dealer_stops 10 10 ->
      forall card cards', [1; 2; 7] = cards' ++ [card] ->
        dealer_loop 10 [5] [1; 2; 7] = dealer_loop 10 ([5] ++ [card]) cards')
  /\ (~ dealer_stops 10 10 -> [1; 2; 7] = [] ->
      dealer_loop 10 [5] [1; 2; 7] = (Raise IndexError, ([5], [])))
  /\ (10 = 10 -> 10 < 12 -> ~ dealer_stops 10 10).
Proof.
  apply (dealer_policy_draws 10 10 [5] [1; 2; 7]). reflexivity.
Defined.

(** ** The invariant of a round *)

Lemma Permutation_CARDS_valid (l : list Z) :
  l ≡ₚ CARDS -> Forall valid_card l.
Proof.
  intros Hp. apply Forall_forall. intros c Hc.
  apply CARDS_valid. by rewrite <- Hp.
Qed.

Lemma single_card_score (c : Z) :
  valid_card c -> exists s, calculate_score [c] = Ok s /\ s <= 15.
Proof.
  unfold valid_card. intros Hc.
  assert (c = 1 \/ c = 2 \/ c = 3 \/ c = 4 \/ c = 5 \/ c = 6 \/ c = 7
          \/ c = 8 \/ c = 9 \/ c = 10) as Hcases by lia.
  decompose [or] Hcases; subst c; eexists;
    (split; [vm_compute; reflexivity | lia]).
Qed.

(** The order of doubles: [x < y] and [y <= x] never hold together. *)
Lemma SFcompare_antisym (x y : spec_float) :
  SFcompare y x = option_map CompOpp (SFcompare x y).
Proof.
  destruct x as [sx|sx| |sx mx ex], y as [sy|sy| |sy my ey];
    repeat match goal with b : bool |- _ => destruct b end;
    simpl; try done;
    rewrite (Z.compare_antisym ex ey);
    destruct (ex ?= ey)%Z; simpl; try done;
    repeat f_equal; symmetry;
    exact (Pos.compare_cont_antisym mx my Eq).
Qed.

Lemma float_lt_not_le (x y : float) :
  (x <? y)%float = true -> (y <=? x)%float = false.
Proof.
  rewrite ltb_spec, leb_spec. unfold SFltb, SFleb.
  rewrite (SFcompare_antisym (Prim2SF x) (Prim2SF y)).
  by destruct (SFcompare (Prim2SF x) (Prim2SF y)) as [[]|].
Qed.

Lemma float_le_not_lt (x y : float) :
  (x <=? y)%float = true -> (y <? x)%float = false.
Proof.
  rewrite ltb_spec, leb_spec. unfold SFltb, SFleb.
  rewrite (SFcompare_antisym (Prim2SF x) (Prim2SF y)).
  by destruct (SFcompare (Prim2SF x) (Prim2SF y)) as [[]|].
Qed.

Lemma accepted_guard (player_id : Z) (amount : float) (w : World) (p : Player) :
  accepted player_id amount w ->
  db w !! player_id = Some p ->
  (balance p <? amount)%float || (amount <=? 0)%float = false.
Proof.
  intros (p' & Hp' & _ & Hpos & Hle) Hp. simplify_eq.
  apply orb_false_iff. split.
  - by apply float_le_not_lt.
  - by apply float_lt_not_le.
Qed.

Lemma start_game_accepted
    (shuffle : list Z -> list Z) (player_id : Z) (amount : float) (w : World) :
  shuffle CARDS ≡ₚ CARDS ->
  accepted player_id amount w ->
  exists c1 c2 cards,
    shuffle CARDS = cards ++ [c2; c1]
    /\ length cards = 38%nat
    /\ start_game shuffle player_id amount w =
         (Ok tt,
          {| game_state :=
               {| deck := cards;
                  player_hand := [c1];
                  dealer_hand := [c2];
                  current_player_id := Some player_id;
                  bet := amount;
                  game_over := false;
                  result_message := msg_empty;
                  active := true |};
             db := db w |}).
Proof.
  intros Hperm Hacc.
  assert (length (shuffle CARDS) = 40%nat) as Hlen by by rewrite Hperm.
  unfold start_game.
  destruct Hacc as (p & Hp & Hrange & Hacc'). rewrite Hrange, Hp. cbn [negb].
  rewrite (accepted_guard player_id amount w p
             (ex_intro _ p (conj Hp (conj Hrange Hacc'))) Hp).
  destruct (shuffle CARDS) as [|c1 l _] using rev_ind; [done|].
  destruct l as [|c2 cards _] using rev_ind; [done|].
  rewrite !pop_app. exists c1, c2, cards.
  split; [by rewrite <- app_assoc|]. split; [|done].
  rewrite !length_app in Hlen. simpl in Hlen. lia.
Qed.

Lemma round_inv_start
    (shuffle : list Z -> list Z) (player_id : Z) (amount : float) (w : World) :
  shuffle CARDS ≡ₚ CARDS ->
  accepted player_id amount w ->
  round_inv (snd (start_game shuffle player_id amount w)).
Proof.
  intros Hperm Hacc.
  destruct (start_game_accepted shuffle player_id amount w Hperm Hacc)
    as (c1 & c2 & cards & Hsh & Hlen & ->).
  rewrite Hsh in Hperm.
  destruct Hacc as (p & Hp & _ & Hpos & _).
  split; simpl.
  - rewrite <- Hperm. by rewrite (Permutation_swap c1 c2 []).
  - lia.
  - intros _. apply single_card_score, CARDS_valid.
    rewrite <- Hperm. set_solver.
  - lia.
  - unfold query_player. simpl. rewrite Hp. by eexists.
  - done.
Qed.

(** What [hit] does on a round that is not over. *)
Lemma hit_in_progress (w : World) :
  round_inv w ->
  game_over (game_state w) = false ->
  exists card cards s i p,
    deck (game_state w) = cards ++ [card]
    /\ calculate_score (player_hand (game_state w) ++ [card]) = Ok s
    /\ query_player w = Some (i, p)
    /\ hit w =
         (Ok tt,
          {| game_state :=
               {| deck := cards;
                  player_hand := player_hand (game_state w) ++ [card];
                  dealer_hand := dealer_hand (game_state w);
                  current_player_id := current_player_id (game_state w);
                  bet := bet (game_state w);
                  game_over := s >? 15;
                  result_message :=
                    if s >? 15 then msg_bust
                    else result_message (game_state w);
                  active := active (game_state w) |};
             db :=
               if s >? 15 then
                 <[i := charge p (bet (game_state w))]> (db w)
               else db w |}).
Proof.
  intros [Hcards Hpl Hlive Hdl [[i p] Hq] Hbet] Hgo.
  destruct (Hlive Hgo) as (s0 & Hs0 & Hle0).
  pose proof (calculate_score_length _ _ Hs0) as Hlen0.
  pose proof (Permutation_length Hcards) as Hlen.
  rewrite !length_app in Hlen. change (length CARDS) with 40%nat in Hlen.
  destruct (deck (game_state w)) as [|card cards _] eqn:Hdeck using rev_ind.
  { simpl in Hlen. lia. }
  pose proof (Permutation_CARDS_valid _ Hcards) as Hvalid.
  assert (Forall valid_card (player_hand (game_state w) ++ [card])) as Hv1.
  { rewrite !Forall_app in *. tauto. }
  destruct (calculate_score_valid _ Hv1) as [s Hs].
  exists card, cards, s, i, p. repeat split; try done.
  unfold hit. rewrite Hgo, Hdeck, pop_app. cbn [player_hand].
  rewrite Hs, Hq.
  destruct (s >? 15); destruct w as [[]]; simpl in *; by subst.
Qed.

Lemma query_player_insert (w : World) (gs : GameState) (i : Z) (p p' : Player) :
  query_player w = Some (i, p) ->
  current_player_id gs = current_player_id (game_state w) ->
  query_player {| game_state := gs; db := <[i := p']> (db w) |} = Some (i, p').
Proof.
  unfold query_player. simpl. intros Hq ->.
  destruct (current_player_id (game_state w)) as [j|]; [|done].
  destruct (db w !! j) eqn:Hj; [|done]. simplify_eq.
  by rewrite lookup_insert_eq.
Qed.

Lemma round_inv_hit (w : World) : round_inv w -> round_inv (snd (hit w)).
Proof.
  intros Hinv.
  destruct (game_over (game_state w)) eqn:Hgo.
  { unfold hit. by rewrite Hgo. }
  destruct (hit_in_progress w Hinv Hgo)
    as (card & cards & s & i & p & Hdeck & Hs & Hq & ->).
  destruct Hinv as [Hcards Hpl Hlive Hdl _ Hbet].
  destruct (Hlive Hgo) as (s0 & Hs0 & Hle0).
  pose proof (calculate_score_length _ _ Hs0) as Hlen0.
  rewrite Hdeck in Hcards.
  split; simpl.
  - rewrite <- Hcards. rewrite <- !app_assoc. f_equiv.
    simpl. symmetry. apply Permutation_middle.
  - rewrite length_app. simpl. lia.
  - destruct (Z.gtb_spec s 15); [done|]. intros _. eauto.
  - done.
  - destruct (s >? 15).
    + erewrite query_player_insert; [by eexists|exact Hq|done].
    + unfold query_player in *. simpl. rewrite Hq. by eexists.
  - done.
Qed.

(** What [stay] does once the dealer's loop has ended on [hand] and
    [cards]. *)
Lemma stay_settles (w : World) (P D i : Z) (hand cards : list Z) (p : Player) :
  calculate_score (player_hand (game_state w)) = Ok P ->
  dealer_loop P (dealer_hand (game_state w)) (deck (game_state w))
    = (Ok tt, (hand, cards)) ->
  calculate_score hand = Ok D ->
  query_player w = Some (i, p) ->
  stay w =
    (Ok tt,
     {| game_state :=
          {| deck := cards;
             player_hand := player_hand (game_state w);
             dealer_hand := hand;
             current_player_id := current_player_id (game_state w);
             bet := bet (game_state w);
             game_over := true;
             result_message :=
               if player_wins P D then msg_player_wins D
               else msg_dealer_wins D;
             active := active (game_state w) |};
        db :=
          <[i := if player_wins P D then credit p (bet (game_state w))
                 else charge p (bet (game_state w))]> (db w) |}).
Proof.
  intros HP Hloop HD Hq. unfold stay.
  rewrite HP, Hloop. cbn [dealer_hand]. by rewrite HD, Hq.
Qed.

Lemma stay_round (w : World) :
  round_inv w ->
  exists P D i p drawn cards,
    calculate_score (player_hand (game_state w)) = Ok P
    /\ deck (game_state w) = cards ++ drawn
    /\ dealer_loop P (dealer_hand (game_state w)) (deck (game_state w))
       = (Ok tt, (dealer_hand (game_state w) ++ rev drawn, cards))
    /\ calculate_score (dealer_hand (game_state w) ++ rev drawn) = Ok D
    /\ dealer_stops D P
    /\ (length (dealer_hand (game_state w) ++ rev drawn) <= 15)%nat
    /\ query_player w = Some (i, p).
Proof.
  intros [Hcards Hpl Hlive Hdl [[i p] Hq] Hbet].
  pose proof (Permutation_CARDS_valid _ Hcards) as Hvalid.
  pose proof (Permutation_length Hcards) as Hlen.
  rewrite !length_app in Hlen. change (length CARDS) with 40%nat in Hlen.
  assert (Forall valid_card (player_hand (game_state w))) as Hvp.
  { rewrite !Forall_app in Hvalid. tauto. }
  destruct (calculate_score_valid _ Hvp) as [P HP].
  destruct (dealer_loop_Ok P (dealer_hand (game_state w)) (deck (game_state w)))
    as (drawn & cards & D & Hloop & Hdeck & HD & Hstop & Hb).
  { rewrite !Forall_app in *. tauto. }
  { lia. }
  exists P, D, i, p, drawn, cards. repeat split; try done.
  destruct drawn as [|c drawn]; [|by apply Hb].
  simpl. by rewrite app_nil_r.
Qed.

Lemma round_inv_stay (w : World) : round_inv w -> round_inv (snd (stay w)).
Proof.
  intros Hinv.
  destruct (stay_round w Hinv)
    as (P & D & i & p & drawn & cards & HP & Hdeck & Hloop & HD & _ & Hb & Hq).
  rewrite (stay_settles w P D i _ _ p HP Hloop HD Hq).
  destruct Hinv as [Hcards Hpl Hlive Hdl _ Hbet].
  split; simpl; try done.
  - rewrite <- Hcards, Hdeck, <- !app_assoc. f_equiv.
    rewrite (Permutation_app_comm drawn), <- app_assoc. do 2 f_equiv.
    symmetry. apply Permutation_rev.
  - erewrite query_player_insert; [by eexists|exact Hq|done].
Qed.

Lemma round_inv_exit (w : World) : round_inv w -> round_inv (snd (exit_game w)).
Proof. intros []. by split. Qed.

Lemma reachable_inv (w : World) : reachable w -> round_inv w.
Proof.
  induction 1 as [shuffle player_id amount w Hperm Hacc| | |].
  - by apply round_inv_start.
  - by apply round_inv_hit.
  - by apply round_inv_stay.
  - by apply round_inv_exit.
Qed.

(** ** Settlement *)



Lemma accepted_world0 : accepted 1 20%float world0.
Proof.
  exists {| username := "anna"; balance := 100%float |}.
  repeat split.
Defined.

Lemma reachable_world_dealt : reachable world_dealt.
Proof.
  apply (reach_start (fun l => l) 1 20%float world0).
  - apply Permutation_refl.
  - exact accepted_world0.
  - reflexivity.
Defined.



(** ** Hit *)

(** Case analysis along the branches of a handler: every scrutinee in turn,
    closing the branches where both sides took the same path. *)
Ltac handler_cases :=
  repeat match goal with
    | |- context [match ?x with _ => _ end] => destruct x; try done
    end.



Lemma reachable_world_seven : reachable world_seven.
Proof.
  apply (reach_start cut_pack 1 20%float world0).
  - unfold cut_pack.
    change CARDS with (take 37 CARDS ++ drop 37 CARDS) at 3.
    apply Permutation_app_comm.
  - exact accepted_world0.
  - reflexivity.
Defined.



(** ** Rounds that are over, rounds that were left *)

Lemma query_player_with_active (b : bool) (w : World) :
  query_player (with_active b w) = query_player w.
Proof. reflexivity. Qed.

Lemma hit_with_active (b : bool) (w : World) :
  hit (with_active b w) = (fst (hit w), with_active b (snd (hit w))).
Proof.
  destruct w as [[dk ph dh cpid a go msg act] d].
  unfold hit, with_active, query_player.
  cbn -[calculate_score pop]. handler_cases.
Qed.

Lemma stay_with_active (b : bool) (w : World) :
  stay (with_active b w) = (fst (stay w), with_active b (snd (stay w))).
Proof.
  destruct w as [[dk ph dh cpid a go msg act] d].
  unfold stay, with_active, query_player.
  cbn -[calculate_score dealer_loop]. handler_cases.
Qed.

(** C5, as the code has it.  On every round that is over, [hit] changes
    nothing: the deck, both hands, the status, the message and every
    balance are as before.  Neither [hit] nor [stay] reads whether the
    round was left by [exit_game]: on a round that was left they act as on
    the same round not left. *)
Theorem hit_on_settled_round (w : World) :
  (game_over (game_state w) = true -> hit w = (Ok tt, w))
  /\ (forall b : bool,
         hit (with_active b w) = (fst (hit w), with_active b (snd (hit w))))
  /\ (forall b : bool,
         stay (with_active b w) = (fst (stay w), with_active b (snd (stay w)))).
Proof.
  split; [|split].
  - intros Hover. unfold hit. by rewrite Hover.
  - intros b. apply hit_with_active.
  - intros b. apply stay_with_active.
Qed.

Lemma hit_on_settled_round_witness : hit world_stood = (Ok tt, world_stood).
Proof.
  apply (proj1 (hit_on_settled_round world_stood)). reflexivity.
Defined.

(** Against C5 as the specification states it: [world_exited] holds no
    round (the round dealt was left by [exit_game]), and [hit] still draws
    a card into the player's hand. *)
Lemma hit_on_exited_round_draws :
  active (game_state world_exited) = false
  /\ fst (hit world_exited) = Ok tt
  /\ player_hand (game_state world_exited) = [10]
  /\ player_hand (game_state (snd (hit world_exited))) = [10; 8]
  /\ snd (hit world_exited) <> world_exited.
Proof.
  repeat split.
  intros Heq.
  apply (f_equal (fun w => player_hand (game_state w))) in Heq.
  discriminate Heq.
Qed.

(** [stay] has no guard on [game_over]: invoked on the round that was just
    settled it settles it once more. *)
Example stay_on_settled_round_settles_again :
  game_over (game_state world_stood) = true
  /\ balance <$> db world_stood !! 1 = Some 120%float
  /\ balance <$> db (snd (stay world_stood)) !! 1 = Some 140%float.
Proof. repeat split; vm_compute; reflexivity. Qed.

(** ** Termination of the dealer's loop *)

(** C7. The dealer's loop is a total function: on every hand and deck it
    ends after drawing a part [drawn] of the deck, so after at most as
    many draws as the deck has cards.  On every world of a round it ends
    without an exception, hence without a draw from an empty deck, and so
    does [stay] as a whole. *)
Theorem dealer_policy_terminates :
  (forall (P : Z) (hand cards : list Z),
      exists r drawn cards',
        dealer_loop P hand cards = (r, (hand ++ rev drawn, cards'))
        /\ cards = cards' ++ drawn
        /\ (length drawn <= length cards)%nat)
  /\ (forall w : World,
         reachable w ->
         exists P drawn cards',
           calculate_score (player_hand (game_state w)) = Ok P
           /\ dealer_loop P (dealer_hand (game_state w)) (deck (game_state w))
              = (Ok tt, (dealer_hand (game_state w) ++ rev drawn, cards'))
           /\ deck (game_state w) = cards' ++ drawn
           /\ (length drawn <= length (deck (game_state w)))%nat
           /\ fst (stay w) = Ok tt).
Proof.
  split.
  - intros P hand cards.
    destruct (dealer_loop_moves P hand cards) as (r & drawn & cards' & H & ->).
    exists r, drawn, cards'. repeat split; [done|].
    rewrite length_app. lia.
  - intros w Hreach.
    destruct (stay_round w (reachable_inv w Hreach))
      as (P & D & i & p & drawn & cards & HP & Hdeck & Hloop & HD & _ & _ & Hq).
    exists P, drawn, cards. repeat split; try done.
    + rewrite Hdeck, length_app. lia.
    + by rewrite (stay_settles w P D i _ _ p HP Hloop HD Hq).
Qed.

Lemma dealer_policy_terminates_witness :
  exists P drawn cards',
    calculate_score (player_hand (game_state world_dealt)) = Ok P
    /\ dealer_loop P (dealer_hand (game_state world_dealt))
         (deck (game_state world_dealt))
       = (Ok tt, (dealer_hand (game_state world_dealt) ++ rev drawn, cards'))
    /\ deck (game_state world_dealt) = cards' ++ drawn
    /\ (length drawn <= length (deck (game_state world_dealt)))%nat
    /\ fst (stay world_dealt) = Ok tt.
Proof.
  apply (proj2 dealer_policy_terminates world_dealt).
  exact reachable_world_dealt.
Defined.

(** ** Start *)





(** C8 at a request the code mishandles.  A bet that is not a number
    passes the guard, since [balance < bet] and [bet <= 0] are both false
    for it: although [0 < bet] does not hold, the round is dealt, with
    that bet. *)
Theorem start_game_accepts_nan :
  (0 <? nan)%float = false
  /\ (nan <=? 100)%float = false
  /\ start_game (fun l => l) 1 nan world0 =
       (Ok tt,
        {| game_state :=
             {| deck := take 38 CARDS;
                player_hand := [10];
                dealer_hand := [9];
                current_player_id := Some 1;
                bet := nan;
                game_over := false;
                result_message := msg_empty;
                active := true |};
           db := db world0 |}).
Proof. repeat split. Qed.

(** ** Conservation of the cards *)

(** C9. In every world reached from an accepted Start by [hit] and [stay]
    (and [exit_game]), the deck and the two hands together are a
    permutation of the 40 cards of the pack, so their lengths add up to
    40. *)
Theorem card_conservation (w : World) :
  reachable w ->
  deck (game_state w) ++ player_hand (game_state w)
    ++ dealer_hand (game_state w) ≡ₚ CARDS
  /\ (length (deck (game_state w)) + length (player_hand (game_state w))
      + length (dealer_hand (game_state w)) = 40)%nat.
Proof.
  intros Hreach. destruct (reachable_inv w Hreach) as [Hcards _ _ _ _ _].
  split; [done|].
  apply Permutation_length in Hcards.
  rewrite !length_app in Hcards. change (length CARDS) with 40%nat in Hcards.
  lia.
Qed.

Lemma card_conservation_witness :
  deck (game_state world_stood) ++ player_hand (game_state world_stood)
    ++ dealer_hand (game_state world_stood) ≡ₚ CARDS
  /\ (length (deck (game_state world_stood))
      + length (player_hand (game_state world_stood))
      + length (dealer_hand (game_state world_stood)) = 40)%nat.
Proof.
  apply (card_conservation world_stood).
  apply reach_stay. exact reachable_world_dealt.
Defined.

(** ** Start over a round in progress *)



(** * Further properties of the code *)

(** ** calculate_score: errors, bounds and the Matta *)

Lemma sum_values_Raise (acc : Z) (hand : list Z) (e : exn) :
  sum_values acc hand = Raise e ->
  e = KeyError /\ exists c, c ∈ hand /\ ~ valid_card c.
Proof.
  revert acc. induction hand as [|c rest IH]; intros acc; simpl; [done|].
  assert (forall acc', sum_values acc' rest = Raise e ->
            e = KeyError /\ exists c', c' ∈ c :: rest /\ ~ valid_card c')
    as IH'.
  { intros acc' Hr. destruct (IH _ Hr) as [-> (c' & Hin & Hbad)].
    split; [done|]. exists c'. split; [by right|done]. }
  destruct (Z.eqb_spec c 10) as [->|Hc]; [apply IH'|].
  rewrite CARD_VALUES_lookup. unfold valid_card.
  repeat case_decide; try apply IH'.
  intros [= <-]. split; [done|]. exists c. split; [by left|lia].
Qed.

Lemma sum_values_Ok_valid (acc b : Z) (hand : list Z) :
  sum_values acc hand = Ok b -> Forall valid_card hand.
Proof.
  revert acc. induction hand as [|c rest IH]; intros acc; simpl; [done|].
  destruct (Z.eqb_spec c 10) as [->|Hc].
  - intros Hs. constructor; [unfold valid_card; lia|by eapply IH].
  - rewrite CARD_VALUES_lookup.
    repeat case_decide; try done; intros Hs;
      (constructor; [unfold valid_card; lia|by eapply IH]).
Qed.

(** The only exception of [calculate_score] is [KeyError], and it is
    raised exactly on the hands that hold a rank outside 1..10. *)
Theorem calculate_score_KeyError (hand : list Z) :
  (forall e, calculate_score hand = Raise e -> e = KeyError)
  /\ (calculate_score hand = Raise KeyError <->
      exists c, c ∈ hand /\ ~ valid_card c)
  /\ ((exists s, calculate_score hand = Ok s) <-> Forall valid_card hand).
Proof.
  assert (forall e, calculate_score hand = Raise e ->
                    e = KeyError /\ exists c, c ∈ hand /\ ~ valid_card c)
    as Hraise.
  { intros e. unfold calculate_score.
    destruct (sum_values 0 hand) as [b|e'] eqn:Hsum; [done|].
    intros [= <-]. by apply (sum_values_Raise 0 hand). }
  assert ((exists s, calculate_score hand = Ok s) -> Forall valid_card hand)
    as Hok.
  { intros [s Hs]. unfold calculate_score in Hs.
    destruct (sum_values 0 hand) as [b|e'] eqn:Hsum; [|done].
    by apply (sum_values_Ok_valid 0 b). }
  split; [|split].
  - intros e He. by apply Hraise in He as [-> _].
  - split; [intros He; by apply Hraise in He as [_ ?]|].
    intros (c & Hin & Hbad).
    destruct (calculate_score hand) as [s|e] eqn:Hs.
    + exfalso. apply Hbad.
      assert (Forall valid_card hand) as Hv by (apply Hok; eauto).
      rewrite Forall_forall in Hv. by apply Hv.
    + by destruct (Hraise e eq_refl) as [-> _].
  - split; [apply Hok|apply calculate_score_valid].
Qed.

(** A hand scores at least half a point for each of its cards, so a hand
    of sixteen cards or more is above 7.5. *)
Theorem calculate_score_per_card (hand : list Z) (s : Z) :
  calculate_score hand = Ok s ->
  Z.of_nat (length hand) <= s
  /\ ((16 <= length hand)%nat -> 15 < s).
Proof.
  intros Hs. pose proof (calculate_score_length hand s Hs). lia.
Qed.

Lemma calculate_score_per_card_witness :
  Z.of_nat (length [8; 9; 10; 8]) <= 15
  /\ ((16 <= length [8; 9; 10; 8])%nat -> 15 < 15).
Proof. apply (calculate_score_per_card [8; 9; 10; 8] 15). reflexivity. Defined.

Lemma matta_step_high (s : Z) : 14 <= s -> matta_step s = s + 1.
Proof.
  intros Hs. unfold matta_step. destruct (Z.eqb_spec s 0); [lia|].
  by destruct (Z.geb_spec s 14); [|lia].
Qed.

Lemma matta_loop_high (n : nat) (s : Z) :
  14 <= s -> matta_loop n s = s + Z.of_nat n.
Proof.
  revert s. induction n as [|n IH]; intros s Hs; simpl matta_loop; [lia|].
  rewrite matta_step_high by done. rewrite IH by lia. lia.
Qed.

Lemma matta_step_low (s : Z) :
  0 < s < 14 -> matta_step s = 14 + s mod 2.
Proof.
  intros Hs. unfold matta_step.
  destruct (Z.eqb_spec s 0); [lia|].
  destruct (Z.geb_spec s 14); [lia|].
  pose proof (Z.mod_pos_bound s 2 ltac:(lia)).
  destruct (Z.eqb_spec (s mod 2) 0); lia.
Qed.

Lemma matta_loop_closed (n : nat) (s : Z) :
  0 <= s ->
  matta_loop (S n) s =
    if s =? 0 then (if Z.of_nat n =? 0 then 1 else 14 + Z.of_nat n)
    else if s <? 14 then 14 + s mod 2 + Z.of_nat n
    else s + 1 + Z.of_nat n.
Proof.
  intros Hs. cbn [matta_loop].
  destruct (Z.eqb_spec s 0) as [->|H0].
  - change (matta_step 0) with 1.
    destruct n as [|n]; [done|]. cbn [matta_loop].
    change (matta_step 1) with 15. rewrite matta_loop_high by lia.
    destruct (Z.eqb_spec (Z.of_nat (S n)) 0); lia.
  - destruct (Z.ltb_spec s 14).
    + rewrite matta_step_low by lia.
      pose proof (Z.mod_pos_bound s 2 ltac:(lia)).
      rewrite matta_loop_high by lia. lia.
    + rewrite matta_step_high by lia. rewrite matta_loop_high by lia. lia.
Qed.

Lemma sum_values_nonneg (hand : list Z) (b : Z) :
  sum_values 0 hand = Ok b -> 0 <= b.
Proof.
  rewrite sum_values_base.
  destruct (Spec.base hand) as [b'|] eqn:Hb; [|done]. intros [= <-].
  pose proof (base_lower_bound hand b' Hb).
  pose proof (count_occ_bound Z.eq_dec 10 hand). lia.
Qed.

(** The score in closed form.  With [b] the sum of the cards that are not
    the Matta and [n >= 1] Matte: a hand of Matte alone scores 0.5 for
    one and 7.5 + 0.5 (n - 2) for more; below 7 the first Matta brings the
    hand to 7.0 or 7.5 (the half of [b] is kept) and each further one adds
    0.5; from 7 on each Matta adds 0.5. *)
Theorem calculate_score_closed_form (hand : list Z) (b : Z) (n : nat) :
  sum_values 0 hand = Ok b ->
  count_occ Z.eq_dec hand 10 = S n ->
  calculate_score hand =
    Ok (if b =? 0 then (if Z.of_nat n =? 0 then 1 else 14 + Z.of_nat n)
        else if b <? 14 then 14 + b mod 2 + Z.of_nat n
        else b + 1 + Z.of_nat n).
Proof.
  intros Hsum Hn. unfold calculate_score. rewrite Hsum, Hn.
  f_equal. apply matta_loop_closed. by apply (sum_values_nonneg hand).
Qed.

Lemma calculate_score_closed_form_witness :
  calculate_score [10; 8; 10; 2] =
    Ok (if 5 =? 0 then (if Z.of_nat 1 =? 0 then 1 else 14 + Z.of_nat 1)
        else if 5 <? 14 then 14 + 5 mod 2 + Z.of_nat 1
        else 5 + 1 + Z.of_nat 1).
Proof.
  apply (calculate_score_closed_form [10; 8; 10; 2] 5 1); reflexivity.
Defined.

(** A hand with exactly one Matta and other cards worth less than 7
    scores 7.0 or 7.5, so the Matta never busts it; and any hand with a
    Matta and another card scores at least 7.0. *)
Theorem matta_fills_to_seven (hand : list Z) (b : Z) :
  sum_values 0 hand = Ok b ->
  0 < b ->
  (count_occ Z.eq_dec hand 10 = 1%nat -> b < 14 ->
   exists s, calculate_score hand = Ok s /\ (s = 14 \/ s = 15))
  /\ ((1 <= count_occ Z.eq_dec hand 10%Z)%nat ->
      exists s, calculate_score hand = Ok s /\ 14 <= s).
Proof.
  intros Hsum Hb. unfold calculate_score. rewrite Hsum. split.
  - intros -> Hlow. eexists. split; [done|].
    rewrite matta_loop_closed by lia.
    destruct (Z.eqb_spec b 0); [lia|]. destruct (Z.ltb_spec b 14); [|lia].
    pose proof (Z.mod_pos_bound b 2 ltac:(lia)). lia.
  - intros Hn. destruct (count_occ Z.eq_dec hand 10) as [|n]; [lia|].
    eexists. split; [done|].
    rewrite matta_loop_closed by lia.
    destruct (Z.eqb_spec b 0); [lia|].
    pose proof (Z.mod_pos_bound b 2 ltac:(lia)).
    destruct (Z.ltb_spec b 14); lia.
Qed.

Lemma matta_fills_to_seven_witness :
  (count_occ Z.eq_dec [3; 10; 8] 10 = 1%nat -> 7 < 14 ->
   exists s, calculate_score [3; 10; 8] = Ok s /\ (s = 14 \/ s = 15))
  /\ ((1 <= count_occ Z.eq_dec [3; 10; 8]%Z 10%Z)%nat ->
      exists s, calculate_score [3; 10; 8] = Ok s /\ 14 <= s).
Proof.
  apply (matta_fills_to_seven [3; 10; 8] 7); [reflexivity|lia].
Defined.

Lemma sum_values_snoc (acc : Z) (hand : list Z) (c : Z) :
  sum_values acc (hand ++ [c]) =
    match sum_values acc hand with
    | Ok b => sum_values b [c]
    | Raise e => Raise e
    end.
Proof.
  revert acc. induction hand as [|x rest IH]; intros acc; [done|].
  cbn [app sum_values]. destruct (x =? 10); [apply IH|].
  destruct (CARD_VALUES !! x); [apply IH|done].
Qed.

(** A drawn card can lower the score.  When the hand holds a Matta and
    its other cards sum to a half-integer below 6.5, the Matta stands at
    7.5; a further 8 or 9 makes the sum an integer, the Matta then stands
    at 7.0, and the score is half a point lower than before the draw. *)
Theorem calculate_score_not_monotone (hand : list Z) (b c : Z) :
  sum_values 0 hand = Ok b ->
  b mod 2 = 1 -> b < 13 ->
  (1 <= count_occ Z.eq_dec hand 10%Z)%nat ->
  c = 8 \/ c = 9 ->
  exists s,
    calculate_score hand = Ok s
    /\ calculate_score (hand ++ [c]) = Ok (s - 1).
Proof.
  intros Hsum Hodd Hlow Hn Hc.
  pose proof (sum_values_nonneg hand b Hsum) as Hb0.
  unfold calculate_score.
  rewrite sum_values_snoc, Hsum, count_occ_app.
  assert (sum_values b [c] = Ok (b + 1)) as ->.
  { by destruct Hc as [-> | ->]. }
  assert (count_occ Z.eq_dec [c] 10 = 0%nat) as ->.
  { by destruct Hc as [-> | ->]. }
  rewrite Nat.add_0_r.
  destruct (count_occ Z.eq_dec hand 10) as [|n]; [lia|].
  eexists. split; [done|]. f_equal.
  rewrite !matta_loop_closed by lia.
  assert ((b + 1) mod 2 = 0) as Heven.
  { rewrite Z.add_mod, Hodd by lia. done. }
  rewrite Heven, Hodd.
  destruct (Z.eqb_spec b 0) as [->|?]; [done|].
  destruct (Z.eqb_spec (b + 1) 0); [lia|].
  destruct (Z.ltb_spec b 14), (Z.ltb_spec (b + 1) 14); lia.
Qed.

Lemma calculate_score_not_monotone_witness :
  exists s,
    calculate_score [8; 10] = Ok s
    /\ calculate_score ([8; 10] ++ [9]) = Ok (s - 1).
Proof.
  apply (calculate_score_not_monotone [8; 10] 1 9);
    [reflexivity | reflexivity | lia | simpl; lia | by right].
Defined.

(** ** hit and stay on any world *)

Lemma calculate_score_Raise (hand : list Z) (e : exn) :
  calculate_score hand = Raise e -> e = KeyError.
Proof.
  unfold calculate_score.
  destruct (sum_values 0 hand) as [b|e'] eqn:Hsum; [done|].
  intros [= <-]. by apply (sum_values_Raise 0 hand) in Hsum as [-> _].
Qed.

(** A draw from an empty deck: [hit] on a round that is not over, and
    [stay] when the dealer has to draw, raise [IndexError] and leave the
    world as it was.  This is what both do before any round was started. *)
Theorem draw_from_empty_deck (w : World) :
  deck (game_state w) = [] ->
  (game_over (game_state w) = false -> hit w = (Raise IndexError, w))
  /\ (forall P D,
         calculate_score (player_hand (game_state w)) = Ok P ->
         calculate_score (dealer_hand (game_state w)) = Ok D ->
         ~ dealer_stops D P ->
         stay w = (Raise IndexError, w))
  /\ (game_state w = initial_game_state ->
      hit w = (Raise IndexError, w) /\ stay w = (Raise IndexError, w)).
Proof.
  intros Hdeck.
  assert (forall P D,
             calculate_score (player_hand (game_state w)) = Ok P ->
             calculate_score (dealer_hand (game_state w)) = Ok D ->
             ~ dealer_stops D P ->
             stay w = (Raise IndexError, w)) as Hstay.
  { intros P D HP HD Hgo. unfold stay. rewrite HP.
    rewrite (dealer_loop_draw P D) by done. rewrite Hdeck, pop_nil.
    rewrite <- Hdeck. by destruct w as [[]]. }
  assert (game_over (game_state w) = false -> hit w = (Raise IndexError, w))
    as Hhit.
  { intros Hgo. unfold hit. by rewrite Hgo, Hdeck, pop_nil. }
  split; [done|]. split; [done|].
  intros Hinit. split.
  - apply Hhit. by rewrite Hinit.
  - apply (Hstay 0 0); try by rewrite Hinit.
    unfold dealer_stops. lia.
Qed.

Lemma draw_from_empty_deck_witness :
  hit world0 = (Raise IndexError, world0)
  /\ stay world0 = (Raise IndexError, world0).
Proof.
  apply (proj2 (proj2 (draw_from_empty_deck world0 eq_refl))). reflexivity.
Defined.

(** [hit], whatever the world and whatever it answers, moves at most the
    last card of the deck to the end of the player's hand; it leaves the
    dealer's hand, the bet, the bettor and the [active] flag as they are,
    and no row of the table other than the bettor's changes. *)
Theorem hit_frame (w : World) :
  let gs := game_state w in
  let gs' := game_state (snd (hit w)) in
  (exists moved,
      (length moved <= 1)%nat
      /\ deck gs = deck gs' ++ moved
      /\ player_hand gs' = player_hand gs ++ moved)
  /\ dealer_hand gs' = dealer_hand gs
  /\ bet gs' = bet gs
  /\ current_player_id gs' = current_player_id gs
  /\ active gs' = active gs
  /\ (forall j, current_player_id gs <> Some j ->
                db (snd (hit w)) !! j = db w !! j).
Proof.
  destruct w as [[dk ph dh cpid b go msg act] d].
  unfold hit, query_player. cbn -[calculate_score pop].
  assert (exists moved : list Z,
             (length moved <= 1)%nat /\ dk = dk ++ moved /\ ph = ph ++ moved)
    as Hnone by (exists []; rewrite !app_nil_r; split; [simpl; lia|done]).
  destruct go; [done|].
  destruct (pop dk) as [[card cards]|e] eqn:Hpop; [|done].
  apply pop_Ok in Hpop as ->.
  assert (exists moved : list Z,
             (length moved <= 1)%nat
             /\ cards ++ [card] = cards ++ moved
             /\ ph ++ [card] = ph ++ moved)
    as Hone by (exists [card]; split; [simpl; lia|done]).
  destruct (calculate_score (ph ++ [card])) as [s|e]; [|done].
  destruct (s >? 15); [|done].
  destruct cpid as [i|]; [|done].
  destruct (d !! i); [|done]. cbn.
  repeat split; try done.
  intros j Hj. apply lookup_insert_ne. congruence.
Qed.

(** [stay], whatever the world and whatever it answers, moves cards only
    from the end of the deck to the end of the dealer's hand; it leaves
    the player's hand, the bet, the bettor and the [active] flag as they
    are, and no row of the table other than the bettor's changes. *)
Theorem stay_frame (w : World) :
  let gs := game_state w in
  let gs' := game_state (snd (stay w)) in
  (exists moved,
      deck gs = deck gs' ++ moved
      /\ dealer_hand gs' = dealer_hand gs ++ rev moved)
  /\ player_hand gs' = player_hand gs
  /\ bet gs' = bet gs
  /\ current_player_id gs' = current_player_id gs
  /\ active gs' = active gs
  /\ (forall j, current_player_id gs <> Some j ->
                db (snd (stay w)) !! j = db w !! j).
Proof.
  destruct w as [[dk ph dh cpid b go msg act] d].
  unfold stay, query_player. cbn -[calculate_score dealer_loop].
  destruct (calculate_score ph) as [P|e].
  2:{ cbn. repeat split; try done. exists []. by rewrite !app_nil_r. }
  destruct (dealer_loop_moves P dh dk) as (r & moved & cards & -> & ->).
  assert (exists moved0 : list Z,
             cards ++ moved = cards ++ moved0
             /\ dh ++ rev moved = dh ++ rev moved0)
    as Hmoved by (by exists moved).
  destruct r as [[]|e]; [|done].
  destruct (calculate_score (dh ++ rev moved)) as [D|e]; [|done].
  destruct cpid as [i|]; [|done].
  destruct (d !! i); [|done]. cbn.
  repeat split; try done.
  intros j Hj. apply lookup_insert_ne. congruence.
Qed.

(** When the bettor's row is missing, [hit] still ends a bust round but
    writes nothing to the table, while [stay] never answers: it raises
    (AttributeError once the dealer has played), with [game_over] and the
    table as they were. *)
Theorem missing_bettor (w : World) :
  query_player w = None ->
  db (snd (hit w)) = db w
  /\ (forall e, fst (hit w) = Raise e -> e <> AttributeError)
  /\ fst (stay w) <> Ok tt
  /\ db (snd (stay w)) = db w
  /\ game_over (game_state (snd (stay w))) = game_over (game_state w)
  /\ (forall P hand cards D,
         calculate_score (player_hand (game_state w)) = Ok P ->
         dealer_loop P (dealer_hand (game_state w)) (deck (game_state w))
           = (Ok tt, (hand, cards)) ->
         calculate_score hand = Ok D ->
         fst (stay w) = Raise AttributeError
         /\ result_message (game_state (snd (stay w))) =
              if player_wins P D then msg_player_wins D
              else msg_dealer_wins D).
Proof.
  intros Hq. split; [|split; [|split; [|split; [|split]]]].
  - unfold hit. rewrite Hq. handler_cases.
  - intros e. unfold hit. rewrite Hq.
    destruct (game_over (game_state w)); [done|].
    destruct (pop (deck (game_state w))) as [[card cards]|e'] eqn:Hpop.
    + cbn [player_hand].
      destruct (calculate_score (player_hand (game_state w) ++ [card]))
        as [s|e'] eqn:Hs.
      * by destruct (s >? 15).
      * cbn. intros [= <-]. by apply calculate_score_Raise in Hs as ->.
    + cbn. intros [= <-]. by apply pop_Raise in Hpop as [_ ->].
  - unfold stay. rewrite Hq. handler_cases.
  - unfold stay. rewrite Hq. handler_cases.
  - unfold stay. rewrite Hq. handler_cases.
  - intros P hand cards D HP Hloop HD. unfold stay.
    rewrite HP, Hloop. cbn [dealer_hand]. by rewrite HD, Hq.
Qed.

Lemma missing_bettor_witness :
  db (snd (hit (with_dealer_hand [7] {| game_state := initial_game_state;
                                         db := ∅ |}))) = ∅
  /\ fst (stay (with_dealer_hand [7; 1] {| game_state := initial_game_state;
                                            db := ∅ |}))
     = Raise AttributeError.
Proof.
  split.
  - apply (missing_bettor (with_dealer_hand [7] {| game_state := initial_game_state;
                                                   db := ∅ |}) eq_refl).
  - apply (proj2 (proj2 (proj2 (proj2 (proj2
             (missing_bettor (with_dealer_hand [7; 1]
                                {| game_state := initial_game_state; db := ∅ |})
                             eq_refl))))) 0 [7; 1] [] 16);
      reflexivity.
Defined.

(** ** The dealer's play as a whole *)

(** When the dealer's loop ends without an exception, the hand it ends on
    is the first one, along the draws, at which a stopping condition
    holds: the final score meets one, so it is at least 6, and the score
    before each draw met none. *)
Theorem dealer_stops_at_first_chance
    (P : Z) (hand cards hand' cards' : list Z) :
  dealer_loop P hand cards = (Ok tt, (hand', cards')) ->
  exists drawn D,
    hand' = hand ++ rev drawn
    /\ cards = cards' ++ drawn
    /\ calculate_score hand' = Ok D
    /\ dealer_stops D P
    /\ 12 <= D
    /\ forall k, (k < length drawn)%nat ->
         exists Dk, calculate_score (hand ++ take k (rev drawn)) = Ok Dk
                    /\ ~ dealer_stops Dk P.
Proof.
  revert hand. induction cards as [|c cards IH] using rev_ind; intros hand;
    (destruct (calculate_score hand) as [ds|e] eqn:Hds;
     [|by rewrite dealer_loop_eq, Hds]);
    (destruct (decide (dealer_stops ds P)) as [Hstop|Hgo];
     [rewrite (dealer_loop_stop P ds) by done;
      intros [= <- <-]; exists [], ds; rewrite !app_nil_r;
      repeat split; try done;
      [unfold dealer_stops in Hstop; lia | simpl; lia]
     |rewrite (dealer_loop_draw P ds) by done]).
  - by rewrite pop_nil.
  - rewrite pop_app. intros Hloop.
    destruct (IH _ Hloop)
      as (drawn & D & -> & -> & HD & Hstop & H12 & Hbefore).
    exists (drawn ++ [c]), D.
    rewrite rev_app_distr, <- !app_assoc. simpl.
    rewrite <- app_assoc in HD. simpl in HD.
    repeat split; try done.
    intros [|k] Hk.
    + exists ds. by rewrite app_nil_r.
    + simpl. rewrite length_app in Hk. simpl in Hk.
      destruct (Hbefore k ltac:(lia)) as (Dk & HDk & Hgok).
      exists Dk. by rewrite <- app_assoc in HDk.
Qed.

Lemma dealer_stops_at_first_chance_witness :
  exists drawn D,
    [3; 4; 7] = [3] ++ rev drawn
    /\ [1; 2; 3; 7; 4] = [1; 2; 3] ++ drawn
    /\ calculate_score [3; 4; 7] = Ok D
    /\ dealer_stops D 15
    /\ 12 <= D
    /\ forall k, (k < length drawn)%nat ->
         exists Dk, calculate_score ([3] ++ take k (rev drawn)) = Ok Dk
                    /\ ~ dealer_stops Dk 15.
Proof.
  apply (dealer_stops_at_first_chance 15 [3] [1; 2; 3; 7; 4]). reflexivity.
Defined.

Lemma dealer_stops_beats_player (P D : Z) :
  dealer_stops D P ->
  12 <= D /\ (P <= 15 -> D <= 15 -> P <= D)
  /\ player_wins P D = (P <=? 15) && (D >? 15).
Proof.
  unfold dealer_stops, player_wins. intros Hstop.
  destruct (Z.leb_spec P 15), (Z.gtb_spec D 15), (Z.gtb_spec P D);
    simpl; repeat split; try done; lia.
Qed.

(** On every world of a round, [stay] answers, the dealer ends at 6 or
    more and never below a player who is not bust, so the comparison of
    scores never favours the player: the bettor's balance becomes the
    double [balance + bet] exactly when the player is at 7.5 or less and
    the dealer is above 7.5, and the double [balance - bet] otherwise. *)
Theorem player_wins_only_if_dealer_busts (w : World) :
  reachable w ->
  exists P D i p,
    calculate_score (player_hand (game_state w)) = Ok P
    /\ calculate_score (dealer_hand (game_state (snd (stay w)))) = Ok D
    /\ query_player w = Some (i, p)
    /\ fst (stay w) = Ok tt
    /\ 12 <= D
    /\ (P <= 15 -> D <= 15 -> P <= D)
    /\ db (snd (stay w)) !! i =
         Some {| username := username p;
                 balance :=
                   if (P <=? 15) && (D >? 15)
                   then (balance p + bet (game_state w))%float
                   else (balance p - bet (game_state w))%float |}
    /\ result_message (game_state (snd (stay w))) =
         if (P <=? 15) && (D >? 15) then msg_player_wins D
         else msg_dealer_wins D.
Proof.
  intros Hreach.
  destruct (stay_round w (reachable_inv w Hreach))
    as (P & D & i & p & drawn & cards & HP & Hdeck & Hloop & HD & Hstop & _ & Hq).
  rewrite (stay_settles w P D i _ _ p HP Hloop HD Hq). cbn.
  unfold result_text, settled.
  destruct (dealer_stops_beats_player P D Hstop) as (H12 & Hge & ->).
  exists P, D, i, p. rewrite lookup_insert_eq.
  repeat split; try done.
  by destruct ((P <=? 15) && (D >? 15)).
Qed.

Lemma player_wins_only_if_dealer_busts_witness :
  exists P D i p,
    calculate_score (player_hand (game_state world_dealt)) = Ok P
    /\ calculate_score (dealer_hand (game_state (snd (stay world_dealt))))
       = Ok D
    /\ query_player world_dealt = Some (i, p)
    /\ fst (stay world_dealt) = Ok tt
    /\ 12 <= D
    /\ (P <= 15 -> D <= 15 -> P <= D)
    /\ db (snd (stay world_dealt)) !! i =
         Some {| username := username p;
                 balance :=
                   if (P <=? 15) && (D >? 15)
                   then (balance p + bet (game_state world_dealt))%float
                   else (balance p - bet (game_state world_dealt))%float |}
    /\ result_message (game_state (snd (stay world_dealt))) =
         if (P <=? 15) && (D >? 15) then msg_player_wins D
         else msg_dealer_wins D.
Proof.
  apply (player_wins_only_if_dealer_busts world_dealt).
  exact reachable_world_dealt.
Defined.

(** ** stay on a round that is already over *)

(** [stay] has no guard on [game_over]: invoked a second time on a round,
    it answers again, draws nothing more, leaves the round slot as the
    first call left it, and adds the bet to the bettor's balance, or
    subtracts it, once more, as the first call did (sum and difference of
    doubles). *)
Theorem stay_twice_settles_twice (w : World) :
  reachable w ->
  let w1 := snd (stay w) in
  let w2 := snd (stay w1) in
  exists i p (won : bool),
    let settle b :=
      if won then (b + bet (game_state w))%float
      else (b - bet (game_state w))%float in
    query_player w = Some (i, p)
    /\ fst (stay w) = Ok tt
    /\ fst (stay w1) = Ok tt
    /\ game_state w2 = game_state w1
    /\ db w1 =
         <[i := {| username := username p;
                   balance := settle (balance p) |}]> (db w)
    /\ db w2 =
         <[i := {| username := username p;
                   balance := settle (settle (balance p)) |}]> (db w).
Proof.
  intros Hreach w1 w2. subst w2 w1.
  destruct (stay_round w (reachable_inv w Hreach))
    as (P & D & i & p & drawn & cards & HP & Hdeck & Hloop & HD & Hstop & _ & Hq).
  rewrite (stay_settles w P D i _ _ p HP Hloop HD Hq). cbn [fst snd].
  exists i, p, (player_wins P D).
  set (settle := fun q => if player_wins P D
                          then credit q (bet (game_state w))
                          else charge q (bet (game_state w))).
  set (w1 := {| game_state := _; db := _ |}).
  assert (query_player w1 = Some (i, settle p)) as Hq1.
  { by apply (query_player_insert w _ i p). }
  assert (stay w1 = (Ok tt, {| game_state := game_state w1;
                               db := <[i := settle (settle p)]> (db w1) |}))
    as Hstay1.
  { rewrite (stay_settles w1 P D i (dealer_hand (game_state w) ++ rev drawn)
               cards (settle p)); try done.
    by apply (dealer_loop_stop P D). }
  rewrite Hstay1. cbn [fst snd game_state db].
  split; [done|]. split; [done|]. split; [done|]. split; [done|].
  subst w1 settle. cbn [db]. rewrite insert_insert_eq.
  by destruct (player_wins P D).
Qed.

Lemma stay_twice_settles_twice_witness :
  exists i p (won : bool),
    let settle b :=
      if won then (b + bet (game_state world_dealt))%float
      else (b - bet (game_state world_dealt))%float in
    query_player world_dealt = Some (i, p)
    /\ fst (stay world_dealt) = Ok tt
    /\ fst (stay (snd (stay world_dealt))) = Ok tt
    /\ game_state (snd (stay (snd (stay world_dealt))))
       = game_state (snd (stay world_dealt))
    /\ db (snd (stay world_dealt)) =
         <[i := {| username := username p;
                   balance := settle (balance p) |}]> (db world_dealt)
    /\ db (snd (stay (snd (stay world_dealt)))) =
         <[i := {| username := username p;
                   balance := settle (settle (balance p)) |}]>
           (db world_dealt).
Proof.
  apply (stay_twice_settles_twice world_dealt). exact reachable_world_dealt.
Defined.

(** A bust followed by [stay] takes the bet twice: [hit] has subtracted
    it from the bettor's balance when the player went above 7.5, and
    [stay], invoked on that round, answers, lets the dealer play and
    subtracts it again (differences of doubles): the balance ends at
    [(balance - bet) - bet]. *)
Theorem bust_then_stay_charges_twice (w : World) :
  reachable w ->
  game_over (game_state w) = false ->
  game_over (game_state (snd (hit w))) = true ->
  let w1 := snd (hit w) in
  let w2 := snd (stay w1) in
  exists i p D,
    query_player w = Some (i, p)
    /\ fst (stay w1) = Ok tt
    /\ db w1 =
         <[i := {| username := username p;
                   balance := (balance p - bet (game_state w))%float |}]>
           (db w)
    /\ db w2 =
         <[i := {| username := username p;
                   balance :=
                     (balance p - bet (game_state w)
                      - bet (game_state w))%float |}]> (db w)
    /\ result_message (game_state w2) = msg_dealer_wins D.
Proof.
  intros Hreach Hgo Hover w1 w2.
  pose proof (reach_hit w Hreach) as Hreach1. fold w1 in Hreach1.
  destruct (hit_in_progress w (reachable_inv w Hreach) Hgo)
    as (card & cards & s & i & p & Hdeck & Hs & Hq & Hhit).
  assert ((s >? 15) = true) as Hbust.
  { rewrite Hhit in Hover. exact Hover. }
  assert (w1 = {| game_state :=
                    {| deck := cards;
                       player_hand := player_hand (game_state w) ++ [card];
                       dealer_hand := dealer_hand (game_state w);
                       current_player_id := current_player_id (game_state w);
                       bet := bet (game_state w);
                       game_over := true;
                       result_message := msg_bust;
                       active := active (game_state w) |};
                  db := <[i := charge p (bet (game_state w))]> (db w) |})
    as Hw1.
  { subst w1. rewrite Hhit. cbn [snd]. by rewrite Hbust. }
  destruct (stay_round w1 (reachable_inv w1 Hreach1))
    as (P & D & i1 & p1 & drawn & cards1 & HP & _ & Hloop & HD & _ & _ & Hq1).
  assert (P = s) as ->.
  { rewrite Hw1 in HP. cbn in HP. congruence. }
  assert (query_player w1 = Some (i, charge p (bet (game_state w)))) as Hq1'.
  { rewrite Hw1. by apply (query_player_insert w _ i p). }
  rewrite Hq1' in Hq1. injection Hq1 as <- <-.
  exists i, p, D. subst w2.
  rewrite (stay_settles w1 s D i _ _ _ HP Hloop HD Hq1').
  assert (player_wins s D = false) as ->.
  { unfold player_wins. destruct (Z.leb_spec s 15); [lia|done]. }
  cbn [fst snd game_state db result_message].
  rewrite Hw1. cbn [db game_state bet].
  repeat split; try done. by rewrite insert_insert_eq.
Qed.

Lemma bust_then_stay_charges_twice_witness :
  exists i p D,
    query_player world_seven = Some (i, p)
    /\ fst (stay (snd (hit world_seven))) = Ok tt
    /\ db (snd (hit world_seven)) =
         <[i := {| username := username p;
                   balance :=
                     (balance p - bet (game_state world_seven))%float |}]>
           (db world_seven)
    /\ db (snd (stay (snd (hit world_seven)))) =
         <[i := {| username := username p;
                   balance :=
                     (balance p - bet (game_state world_seven)
                      - bet (game_state world_seven))%float |}]>
           (db world_seven)
    /\ result_message (game_state (snd (stay (snd (hit world_seven)))))
       = msg_dealer_wins D.
Proof.
  apply (bust_then_stay_charges_twice world_seven).
  - exact reachable_world_seven.
  - reflexivity.
  - reflexivity.
Defined.

(** ** The shape of a round, and what [home] shows of it *)

Lemma reachable_shape (w : World) :
  reachable w ->
  player_hand (game_state w) <> []
  /\ dealer_hand (game_state w) <> []
  /\ (game_over (game_state w) = false ->
      length (dealer_hand (game_state w)) = 1%nat
      /\ result_message (game_state w) = msg_empty)
  /\ (game_over (game_state w) = true ->
      result_message (game_state w) <> msg_empty).
Proof.
  induction 1 as [shuffle player_id amount w Hperm Hacc
                 |w Hreach IH|w Hreach IH|w Hreach IH].
  - destruct (start_game_accepted shuffle player_id amount w Hperm Hacc)
      as (c1 & c2 & cards & _ & _ & ->).
    by cbn.
  - destruct IH as (Hph & Hdh & Hlive & Hover).
    destruct (game_over (game_state w)) eqn:Hgo.
    { assert (hit w = (Ok tt, w)) as -> by (unfold hit; by rewrite Hgo).
      cbn. rewrite Hgo. by repeat split. }
    destruct (hit_in_progress w (reachable_inv w Hreach) Hgo)
      as (card & cards & s & i & p & _ & _ & _ & ->).
    cbn. destruct (Hlive eq_refl) as [Hone Hmsg].
    repeat split; try done.
    + by destruct (player_hand (game_state w)).
    + by destruct (s >? 15).
    + by destruct (s >? 15).
  - destruct IH as (Hph & Hdh & Hlive & Hover).
    destruct (stay_round w (reachable_inv w Hreach))
      as (P & D & i & p & drawn & cards & HP & _ & Hloop & HD & _ & _ & Hq).
    rewrite (stay_settles w P D i _ _ p HP Hloop HD Hq). cbn.
    repeat split; try done.
    + by destruct (dealer_hand (game_state w)).
    + by destruct (player_wins P D).
  - destruct IH as (Hph & Hdh & Hlive & Hover). by cbn.
Qed.

(** In every world of a round both hands hold a card; while the round is
    in progress the dealer holds exactly one card, the message is empty
    and the player's hand scores 7.5 or less; once the round is over the
    message is set. *)
Theorem round_shape (w : World) :
  reachable w ->
  player_hand (game_state w) <> []
  /\ dealer_hand (game_state w) <> []
  /\ (game_over (game_state w) = false ->
      length (dealer_hand (game_state w)) = 1%nat
      /\ result_message (game_state w) = msg_empty
      /\ exists s, calculate_score (player_hand (game_state w)) = Ok s
                   /\ s <= 15)
  /\ (game_over (game_state w) = true ->
      result_message (game_state w) <> msg_empty).
Proof.
  intros Hreach.
  destruct (reachable_shape w Hreach) as (Hph & Hdh & Hlive & Hover).
  destruct (reachable_inv w Hreach) as [_ _ Hscore _ _ _].
  repeat split; try done; try by apply Hlive.
  by apply Hscore.
Qed.

Lemma round_shape_witness :
  player_hand (game_state world_stood) <> []
  /\ dealer_hand (game_state world_stood) <> []
  /\ (game_over (game_state world_stood) = false ->
      length (dealer_hand (game_state world_stood)) = 1%nat
      /\ result_message (game_state world_stood) = msg_empty
      /\ exists s, calculate_score (player_hand (game_state world_stood)) = Ok s
                   /\ s <= 15)
  /\ (game_over (game_state world_stood) = true ->
      result_message (game_state world_stood) <> msg_empty).
Proof.
  apply (round_shape world_stood). apply reach_stay.
  exact reachable_world_dealt.
Defined.

(** On every world of a round [home] answers without an exception.  When
    the round was left it shows the menu; otherwise it shows the bettor's
    row, the player's hand and its score, the bet, and the whole dealer's
    hand: while the round is in progress that hand is the one card
    [dealer_hand[0]]. *)
Theorem home_shows_round
    (all_players top_players : gmap Z Player -> list Player) (w : World) :
  reachable w ->
  let gs := game_state w in
  (active gs = false ->
   home all_players top_players w =
     Ok (view_menu (all_players (db w)) (top_players (db w))))
  /\ (active gs = true ->
      exists i p s,
        query_player w = Some (i, p)
        /\ calculate_score (player_hand gs) = Ok s
        /\ home all_players top_players w =
             Ok (view_game (Some p) (player_hand gs) (dealer_hand gs) s
                   (game_over gs) (result_message gs) (bet gs))
        /\ (game_over gs = false ->
            exists c, dealer_hand gs = [c] /\ s <= 15)).
Proof.
  intros Hreach gs. subst gs. split.
  - intros Hact. unfold home. by rewrite Hact.
  - intros Hact.
    destruct (reachable_shape w Hreach) as (Hph & Hdh & Hlive & Hover).
    destruct (reachable_inv w Hreach) as [Hcards _ Hscore _ [[i p] Hq] _].
    assert (Forall valid_card (player_hand (game_state w))) as Hvp.
    { apply Permutation_CARDS_valid in Hcards.
      rewrite !Forall_app in Hcards. tauto. }
    destruct (calculate_score_valid _ Hvp) as [s Hs].
    exists i, p, s. unfold home. rewrite Hact, Hq, Hs.
    destruct (game_over (game_state w)) eqn:Hgo.
    + by repeat split.
    + destruct (Hlive eq_refl) as [Hone _].
      destruct (dealer_hand (game_state w)) as [|c [|c' rest]]; try done.
      cbn. repeat split; try done. intros _. exists c. split; [done|].
      destruct (Hscore eq_refl) as (s' & Hs' & Hle). congruence.
Qed.

Lemma home_shows_round_witness :
  (active (game_state world_dealt) = false ->
   home (fun _ => []) (fun _ => []) world_dealt =
     Ok (view_menu [] []))
  /\ (active (game_state world_dealt) = true ->
      exists i p s,
        query_player world_dealt = Some (i, p)
        /\ calculate_score (player_hand (game_state world_dealt)) = Ok s
        /\ home (fun _ => []) (fun _ => []) world_dealt =
             Ok (view_game (Some p) (player_hand (game_state world_dealt))
                   (dealer_hand (game_state world_dealt)) s
                   (game_over (game_state world_dealt))
                   (result_message (game_state world_dealt))
                   (bet (game_state world_dealt)))
        /\ (game_over (game_state world_dealt) = false ->
            exists c, dealer_hand (game_state world_dealt) = [c] /\ s <= 15)).
Proof.
  apply (home_shows_round (fun _ => []) (fun _ => []) world_dealt).
  exact reachable_world_dealt.
Defined.

(** ** add_player and the table *)

(** A new username on a free key: [add_player] answers with the redirect,
    leaves the round slot and every other row as they are, and stores the
    new player with a balance of 100, who can at once start a round with
    any bet from above 0 up to 100 (the key being one the table can
    hold).  A round under way is not disturbed.
    A username already in the table, or a key already taken, is refused
    with the world unchanged. *)
Theorem add_player_adds (new_id : Z) (name : string) (w : World) :
  let w' := snd (add_player new_id name w) in
  (~ map_Exists (fun _ p => username p = name) (db w) ->
   db w !! new_id = None ->
   fst (add_player new_id name w) = Added
   /\ game_state w' = game_state w
   /\ db w' !! new_id = Some {| username := name; balance := 100%float |}
   /\ (forall j, j <> new_id -> db w' !! j = db w !! j)
   /\ (forall amount : float,
          int64_range new_id = true ->
          (0 <? amount)%float = true -> (amount <=? 100)%float = true ->
          accepted new_id amount w')
   /\ (round_inv w -> round_inv w' /\ query_player w' = query_player w))
  /\ (map_Exists (fun _ p => username p = name) (db w)
      \/ is_Some (db w !! new_id) ->
      add_player new_id name w = (IntegrityError, w)).
Proof.
  intros w'. subst w'. unfold add_player. split.
  - intros Hname Hid. rewrite decide_False by done. rewrite Hid. cbn.
    rewrite lookup_insert_eq.
    split; [done|]. split; [done|]. split; [done|].
    split; [by intros j Hj; rewrite lookup_insert_ne|].
    split.
    { intros amount Hrange Hpos Hle. eexists. cbn.
      rewrite lookup_insert_eq. done. }
    intros [Hcards Hpl Hlive Hdl [[i p] Hq] Hbet].
    assert (query_player
              {| game_state := game_state w;
                 db := <[new_id := {| username := name; balance := 100%float |}]>
                         (db w) |} = query_player w) as Hq'.
    { unfold query_player in *. cbn.
      destruct (current_player_id (game_state w)) as [j|]; [|done].
      destruct (decide (j = new_id)) as [->|Hj].
      - by rewrite Hid in Hq.
      - by rewrite lookup_insert_ne. }
    split; [|done].
    split; try done. rewrite Hq', Hq. by eexists.
  - intros [Hname|[q Hq]].
    + by rewrite decide_True.
    + rewrite Hq. by case_decide.
Qed.

Lemma add_player_adds_witness :
  fst (add_player 2 "bruno" world_dealt) = Added
  /\ game_state (snd (add_player 2 "bruno" world_dealt))
     = game_state world_dealt
  /\ db (snd (add_player 2 "bruno" world_dealt)) !! 2
     = Some {| username := "bruno"; balance := 100%float |}
  /\ (forall j, j <> 2 ->
        db (snd (add_player 2 "bruno" world_dealt)) !! j
        = db world_dealt !! j)
  /\ (forall amount : float,
         int64_range 2 = true ->
         (0 <? amount)%float = true -> (amount <=? 100)%float = true ->
         accepted 2 amount (snd (add_player 2 "bruno" world_dealt)))
  /\ (round_inv world_dealt ->
      round_inv (snd (add_player 2 "bruno" world_dealt))
      /\ query_player (snd (add_player 2 "bruno" world_dealt))
         = query_player world_dealt).
Proof.
  apply (proj1 (add_player_adds 2 "bruno" world_dealt)).
  - intros (i & p & Hp & Hname).
    change (db world_dealt) with one_player in Hp. unfold one_player in Hp.
    apply lookup_singleton_Some in Hp as [_ <-]. discriminate Hname.
  - reflexivity.
Defined.

Lemma unique_usernames_update (table : gmap Z Player) (i : Z) (p p' : Player) :
  unique_usernames table ->
  table !! i = Some p ->
  username p' = username p ->
  unique_usernames (<[i := p']> table).
Proof.
  intros Huniq Hi Hname j k q r Hj Hk Hqr.
  destruct (decide (i = j)) as [<-|Hij], (decide (i = k)) as [<-|Hik];
    try done.
  - rewrite lookup_insert_eq in Hj. rewrite lookup_insert_ne in Hk by done.
    simplify_eq. apply (Huniq i k p r); congruence.
  - rewrite lookup_insert_eq in Hk. rewrite lookup_insert_ne in Hj by done.
    simplify_eq. apply (Huniq j i q p); congruence.
  - rewrite lookup_insert_ne in Hj, Hk by done. by apply (Huniq j k q r).
Qed.

Lemma hit_table (w : World) :
  db (snd (hit w)) = db w
  \/ exists i p,
       db w !! i = Some p
       /\ db (snd (hit w)) = <[i := charge p (bet (game_state w))]> (db w).
Proof.
  unfold hit, query_player.
  destruct (game_over (game_state w)); [by left|].
  destruct (pop (deck (game_state w))) as [[card cards]|e]; [|by left].
  cbn [player_hand].
  destruct (calculate_score (player_hand (game_state w) ++ [card]))
    as [s|e]; [|by left].
  destruct (s >? 15); [|by left].
  destruct (current_player_id (game_state w)) as [i|]; [|by left].
  destruct (db w !! i) as [p|] eqn:Hp; [|by left].
  right. by exists i, p.
Qed.

Lemma stay_table (w : World) :
  db (snd (stay w)) = db w
  \/ exists i p p',
       db w !! i = Some p
       /\ username p' = username p
       /\ db (snd (stay w)) = <[i := p']> (db w).
Proof.
  unfold stay, query_player.
  destruct (calculate_score (player_hand (game_state w))) as [P|e];
    [|by left].
  destruct (dealer_loop P (dealer_hand (game_state w)) (deck (game_state w)))
    as [[[]|e] [hand cards]]; [|by left].
  cbn [dealer_hand].
  destruct (calculate_score hand) as [D|e]; [|by left].
  destruct (current_player_id (game_state w)) as [i|]; [|by left].
  destruct (db w !! i) as [p|] eqn:Hp; [|by left].
  right. eexists i, p, _. split; [done|]. split; [|done].
  unfold settled. by destruct (player_wins P D).
Qed.

(** Usernames stay unique: from a table in which no two rows share a
    username, every route ([add_player], [start_game], [hit], [stay],
    [exit_game]) leads to such a table again, whatever it answers. *)
Theorem usernames_stay_unique (w : World) :
  unique_usernames (db w) ->
  (forall new_id name,
      unique_usernames (db (snd (add_player new_id name w))))
  /\ (forall shuffle player_id amount,
         unique_usernames (db (snd (start_game shuffle player_id amount w))))
  /\ unique_usernames (db (snd (hit w)))
  /\ unique_usernames (db (snd (stay w)))
  /\ unique_usernames (db (snd (exit_game w))).
Proof.
  intros Huniq. repeat split.
  - intros new_id name. unfold add_player.
    case_decide as Hname; [done|].
    destruct (db w !! new_id) eqn:Hid; [done|]. cbn.
    intros j k q r Hj Hk Hqr.
    destruct (decide (new_id = j)) as [<-|Hij],
             (decide (new_id = k)) as [<-|Hik]; try done.
    + rewrite lookup_insert_eq in Hj. rewrite lookup_insert_ne in Hk by done.
      simplify_eq. exfalso. apply Hname. exists k, r. by split.
    + rewrite lookup_insert_eq in Hk. rewrite lookup_insert_ne in Hj by done.
      simplify_eq. exfalso. apply Hname. exists j, q. by split.
    + rewrite lookup_insert_ne in Hj, Hk by done. by apply (Huniq j k q r).
  - intros shuffle player_id amount. unfold start_game.
    destruct (negb (int64_range player_id)); [done|].
    destruct (db w !! player_id) as [p|]; [|done].
    destruct ((balance p <? amount)%float || (amount <=? 0)%float); [done|].
    destruct (pop (shuffle CARDS)) as [[c1 deck1]|e]; [|done].
    by destruct (pop deck1) as [[c2 deck2]|e].
  - destruct (hit_table w) as [->|(i & p & Hp & ->)]; [done|].
    by apply (unique_usernames_update _ i p).
  - destruct (stay_table w) as [->|(i & p & p' & Hp & Hname & ->)]; [done|].
    by apply (unique_usernames_update _ i p).
  - done.
Qed.

Lemma usernames_stay_unique_witness :
  (forall new_id name,
      unique_usernames (db (snd (add_player new_id name world0))))
  /\ (forall shuffle player_id amount,
         unique_usernames
           (db (snd (start_game shuffle player_id amount world0))))
  /\ unique_usernames (db (snd (hit world0)))
  /\ unique_usernames (db (snd (stay world0)))
  /\ unique_usernames (db (snd (exit_game world0))).
Proof.
  apply (usernames_stay_unique world0).
  intros i j p q Hi Hj _.
  change (db world0) with one_player in Hi, Hj. unfold one_player in Hi, Hj.
  apply lookup_singleton_Some in Hi as [<- _].
  by apply lookup_singleton_Some in Hj as [<- _].
Defined.

Lemma calculate_score_KeyError_witness :
  calculate_score [10; 11] = Raise KeyError.
Proof.
  apply (proj1 (proj2 (calculate_score_KeyError [10; 11]))).
  exists 11. split; [set_solver|unfold valid_card; lia].
Defined.

Lemma hit_frame_witness :
  db (snd (hit world_seven)) !! 2 = db world_seven !! 2.
Proof.
  apply (proj2 (proj2 (proj2 (proj2 (proj2 (hit_frame world_seven)))))).
  discriminate.
Defined.

Lemma stay_frame_witness :
  db (snd (stay world_dealt)) !! 2 = db world_dealt !! 2.
Proof.
  apply (proj2 (proj2 (proj2 (proj2 (proj2 (stay_frame world_dealt)))))).
  discriminate.
Defined.

(** ** A bet that is not a number *)



